(** * EchoTube: the duplicate-suppression cache, the webhook delivery path
      and the polling-cycle processor, embedded from the JavaScript sources

    - [Cache]   : [cache.js]   (class [VideoCache])
    - [Discord] : [discord.js] (classes [DiscordWebhook], [MultiDiscordWebhook])
    - [Index]   : [index.js]   (function [processVideos] of the polling cycle)
    - [Queue]   : [discord.js] (the request queue of an endpoint and its
                  worker, with an explicit clock)
    - [Cycle]   : [index.js]   (functions [performPollingCycle] and
                  [gracefulShutdown])
    - [Youtube] : [youtube.js] (the keyword filter and [fetchAllVideos])
    - [Logger]  : [logger.js]  (the level of a logger)
    - [Configuration] : [config.js] (function [loadConfig] and its validators)

    Conventions of the embedding.
    - A JavaScript [Date] is represented by its epoch-millisecond value
      (a [Z]); the ISO-8601 string [d.toISOString()] kept in the cache and in
      the state file is identified with that value, since
      [new Date(d.toISOString())] is [d] again for every valid date.
    - A JavaScript [Set] of strings is the list of its elements in insertion
      order, without duplicates; [add] of a present element changes nothing.
    - The [Map] [latestVideoTimestamps] is a finite map [gmap string Z].
    - [Date.now()] is an explicit argument [now] of every operation that
      reads the clock.
    - Mutation of [this] is explicit state passing: an operation takes the
      cache and returns the new cache (with its result, when it has one). *)

From Stdlib Require Import ZArith Lia List Bool Ascii String.
From stdpp Require Import gmap strings pretty list sorting.
From Equations Require Import Equations.

Import ListNotations.

(* ===================================================================== *)
(** ** JavaScript [Set] and insertion-ordered [Map] on string keys       *)
(* ===================================================================== *)

Module JS.

(** [s.has(x)] *)
Definition Set_has (x : string) (s : list string) : bool :=
  bool_decide (x ∈ s).

(** [s.add(x)]: appended when absent, otherwise no effect. *)
Definition Set_add (x : string) (s : list string) : list string :=
  if Set_has x s then s else s ++ [x].

(** [new Set(array)] *)
Definition Set_from (array : list string) : list string :=
  foldl (fun s x => Set_add x s) [] array.

(** A local [Map] whose iteration order matters: association list in
    insertion order, one entry per key. *)
Fixpoint Map_get {V} (k : string) (m : list (string * V)) : option V :=
  match m with
  | [] => None
  | (k', v) :: m' => if String.eqb k k' then Some v else Map_get k m'
  end.

Fixpoint Map_set {V} (k : string) (v : V) (m : list (string * V))
  : list (string * V) :=
  match m with
  | [] => [(k, v)]
  | (k', v') :: m' =>
      if String.eqb k k' then (k, v) :: m' else (k', v') :: Map_set k v m'
  end.

(** [array.slice(start)] for an integer [start]: a negative [start] counts
    from the end, and both ends are clamped. [slice(-0)] is [slice(0)]. *)
Definition slice_from {A} (start : Z) (array : list A) : list A :=
  let len := Z.of_nat (length array) in
  let k := if (start <? 0)%Z then Z.max (len + start) 0 else Z.min start len in
  drop (Z.to_nat k) array.

(** The default comparison of [array.sort()] on strings: code-unit order. *)
Definition str_le (a b : string) : Prop := String.leb a b = true.

#[global] Instance str_le_dec : RelDecision str_le.
Proof. intros a b. unfold str_le. apply _. Defined.

(** [array.sort()] on strings: ascending in the code-unit order (a string
    is the sequence of its code units, one per character for the ASCII
    identifiers of the videos). *)
Definition sort (array : list string) : list string :=
  merge_sort str_le array.

End JS.

(* ===================================================================== *)
(** ** cache.js                                                          *)
(* ===================================================================== *)

Module Cache.

(** A video as produced by the feed layer ([youtube.js]). *)
Record Video := mkVideo {
  id : string;
  title : string;
  link : string;
  published : Z;
  channelName : string;
  thumbnail : option string;
  sourceType : string;
  sourceId : string
}.

Record VideoCache := mkCache {
  cacheFile : option string;
  seenVideoIds : list string;
  latestVideoTimestamps : gmap string Z;
  lastSaveTime : Z
}.

(** [constructor(cacheFile = null)] *)
Definition new_VideoCache (file : option string) (now : Z) : VideoCache :=
  mkCache file [] ∅ now.

Definition set_seen (s : list string) (c : VideoCache) : VideoCache :=
  mkCache (cacheFile c) s (latestVideoTimestamps c) (lastSaveTime c).

Definition set_latest (m : gmap string Z) (c : VideoCache) : VideoCache :=
  mkCache (cacheFile c) (seenVideoIds c) m (lastSaveTime c).

Definition set_lastSaveTime (t : Z) (c : VideoCache) : VideoCache :=
  mkCache (cacheFile c) (seenVideoIds c) (latestVideoTimestamps c) t.

(** *** The state file *)

(** The document written by [save]. A field is [None] when the guard of
    [initialize] rejects it (absent, or not an array for [seenVideoIds];
    absent or falsy for [latestVideoTimestamps]). The timestamps object is
    the list of its own properties, as [Object.entries] lists them. *)
Record CacheData := mkData {
  cd_seenVideoIds : option (list string);
  cd_latestVideoTimestamps : option (list (string * Z));
  cd_lastUpdated : Z;
  cd_version : string
}.

Inductive FileContent :=
| Unreadable               (* read error other than ENOENT, or invalid JSON *)
| Document (d : CacheData).

(** The file system: the files that exist, and whether writes succeed. *)
Record FS := mkFS {
  files : gmap string FileContent;
  writable : bool
}.

(** [fs.writeFile(path, JSON.stringify(doc))]: [None] when it throws. *)
Definition writeFile (path : string) (d : CacheData) (fs : FS) : option FS :=
  if writable fs
  then Some (mkFS (<[path := Document d]> (files fs)) (writable fs))
  else None.

(** [Object.fromEntries(map)] followed by [Object.entries]. *)
Definition Object_fromEntries (m : gmap string Z) : list (string * Z) :=
  map_to_list m.

(** [new Map(entries)]: a later entry overrides an earlier one. *)
Definition Map_from (entries : list (string * Z)) : gmap string Z :=
  foldl (fun m kv => <[kv.1 := kv.2]> m) ∅ entries.

(** The path tested by [if (!this.cacheFile)]: [null] and the empty string
    both mean memory-only mode. *)
Definition statePath (c : VideoCache) : option string :=
  match cacheFile c with
  | Some (String a rest) => Some (String a rest)
  | _ => None
  end.

(** [initialize()] *)
Definition initialize (fs : FS) (c : VideoCache) : VideoCache :=
  match statePath c with
  | None => c
  | Some path =>
      match files fs !! path with
      | None => c                       (* ENOENT: start fresh *)
      | Some Unreadable => c            (* warning logged: start fresh *)
      | Some (Document cacheData) =>
          let c1 :=
            match cd_seenVideoIds cacheData with
            | Some arr => set_seen (JS.Set_from arr) c
            | None => c
            end in
          match cd_latestVideoTimestamps cacheData with
          | Some entries => set_latest (Map_from entries) c1
          | None => c1
          end
      end
  end.

(** [save(force = false)] *)
Definition save (force : bool) (now : Z) (c : VideoCache) (fs : FS)
  : VideoCache * FS :=
  match statePath c with
  | None => (c, fs)
  | Some path =>
      let timeSinceLastSave := (now - lastSaveTime c)%Z in
      if negb force && (timeSinceLastSave <? 30000)%Z then (c, fs)
      else
        let cacheData :=
          mkData (Some (seenVideoIds c))
                 (Some (Object_fromEntries (latestVideoTimestamps c)))
                 now "1.0.0" in
        match writeFile path cacheData fs with
        | Some fs' => (set_lastSaveTime now c, fs')
        | None => (c, fs)               (* error logged *)
        end
  end.

(** [shutdown()] *)
Definition shutdown (now : Z) (c : VideoCache) (fs : FS) : VideoCache * FS :=
  save true now c fs.

(** *** Queries and updates *)

Definition hasBeenSeen (videoId : string) (c : VideoCache) : bool :=
  JS.Set_has videoId (seenVideoIds c).

Definition markAsSeen (videoId : string) (c : VideoCache) : VideoCache :=
  set_seen (JS.Set_add videoId (seenVideoIds c)) c.

Definition markMultipleAsSeen (videoIds : list string) (c : VideoCache)
  : VideoCache :=
  foldl (fun c id => set_seen (JS.Set_add id (seenVideoIds c)) c) c videoIds.

Definition updateLatestTimestamp (sourceId : string) (timestamp : Z)
    (c : VideoCache) : VideoCache :=
  let currentLatest := latestVideoTimestamps c !! sourceId in
  let newTimestamp := timestamp in
  match currentLatest with
  | None => set_latest (<[sourceId := newTimestamp]> (latestVideoTimestamps c)) c
  | Some cur =>
      if (cur <? newTimestamp)%Z
      then set_latest (<[sourceId := newTimestamp]> (latestVideoTimestamps c)) c
      else c
  end.

Definition getLatestTimestamp (sourceId : string) (c : VideoCache) : option Z :=
  latestVideoTimestamps c !! sourceId.

Definition filterNewVideos (videos : list Video) (c : VideoCache) : list Video :=
  List.filter (fun video => negb (hasBeenSeen (id video) c)) videos.

(** The template string [`${video.sourceType}:${video.sourceId}`]. *)
Definition sourceKeyOf (video : Video) : string :=
  sourceType video +:+ ":" +:+ sourceId video.

(** First loop of [processVideos]: the newest publication date per source,
    in a local [Map]. *)
Definition collectSourceTimestamps (videos : list Video) : list (string * Z) :=
  foldl (fun sourceTimestamps video =>
           let sourceKey := sourceKeyOf video in
           let videoDate := published video in
           match JS.Map_get sourceKey sourceTimestamps with
           | None => JS.Map_set sourceKey videoDate sourceTimestamps
           | Some currentLatest =>
               if (currentLatest <? videoDate)%Z
               then JS.Map_set sourceKey videoDate sourceTimestamps
               else sourceTimestamps
           end)
        [] videos.

(** [sourceTimestamps.forEach(...)]: the cache is updated source by source. *)
Definition applySourceTimestamps (sourceTimestamps : list (string * Z))
    (c : VideoCache) : VideoCache :=
  foldl (fun c kv => updateLatestTimestamp kv.1 kv.2 c) c sourceTimestamps.

Definition markAllSeen (videos : list Video) (c : VideoCache) : VideoCache :=
  foldl (fun c video => markAsSeen (id video) c) c videos.

(** Development mode: the first new video of each source. The loop state is
    the pair [(devVideos, seenSources)]. *)
Definition onePerSource (newVideos : list Video) : list Video * list string :=
  foldl (fun '(devVideos, seenSources) video =>
           let sourceKey := sourceKeyOf video in
           if negb (JS.Set_has sourceKey seenSources)
           then (devVideos ++ [video], JS.Set_add sourceKey seenSources)
           else (devVideos, seenSources))
        ([], []) newVideos.

(** [processVideos(videos, isInitialRun = false, mode = 'production')] *)
Definition processVideos (videos : list Video) (isInitialRun : bool)
    (mode : string) (c : VideoCache) : list Video * VideoCache :=
  let sourceTimestamps := collectSourceTimestamps videos in
  let c := applySourceTimestamps sourceTimestamps c in
  if isInitialRun && String.eqb mode "production" then
    ([], markAllSeen videos c)
  else if String.eqb mode "development" then
    let newVideos := filterNewVideos videos c in
    let devVideos := fst (onePerSource newVideos) in
    (devVideos, markAllSeen newVideos c)
  else
    let newVideos := filterNewVideos videos c in
    (newVideos, markAllSeen newVideos c).

Definition isInitialRun (c : VideoCache) : bool :=
  Nat.eqb (length (seenVideoIds c)) 0.

(** [filterByTimestamp(videos, sourceId)] *)
Definition filterByTimestamp (videos : list Video) (sourceId : string)
    (c : VideoCache) : list Video :=
  let sourceKey := "channel:" +:+ sourceId in
  let playlistKey := "playlist:" +:+ sourceId in
  let latestTimestamp :=
    match getLatestTimestamp sourceKey c with
    | Some t => Some t
    | None => getLatestTimestamp playlistKey c
    end in
  match latestTimestamp with
  | None => videos
  | Some latestDate =>
      List.filter (fun video => (latestDate <? published video)%Z) videos
  end.

(** [cleanup(maxEntries = 10000)] *)
Definition cleanup (maxEntries : Z) (c : VideoCache) : VideoCache :=
  if (Z.of_nat (length (seenVideoIds c)) <=? maxEntries)%Z then c
  else
    let videoIds := JS.sort (seenVideoIds c) in
    let toKeep := JS.slice_from (- maxEntries) videoIds in
    set_seen (JS.Set_from toKeep) c.

End Cache.

(* ===================================================================== *)
(** ** discord.js                                                        *)
(* ===================================================================== *)

Module Discord.

(** *** Rate limiting: 5 requests per 2 seconds *)

Definition RATE_LIMIT_REQUESTS : nat := 5.
Definition RATE_LIMIT_WINDOW_MS : Z := 2000.

(** The dispatch state of one endpoint that the rate limiter reads. *)
Record DiscordWebhook := mkWebhook {
  webhookUrl : string;
  requestTimestamps : list Z
}.

Definition new_DiscordWebhook (url : string) : DiscordWebhook :=
  mkWebhook url [].

(** [_canMakeRequest()]: drops the expired timestamps, then compares the
    number of the remaining ones with the quota. *)
Definition _canMakeRequest (now : Z) (w : DiscordWebhook)
  : bool * DiscordWebhook :=
  let kept :=
    List.filter (fun timestamp => (now - timestamp <? RATE_LIMIT_WINDOW_MS)%Z)
                (requestTimestamps w) in
  (Nat.ltb (length kept) RATE_LIMIT_REQUESTS, mkWebhook (webhookUrl w) kept).

(** [_calculateDelay()] *)
Definition _calculateDelay (now : Z) (w : DiscordWebhook) : Z :=
  match requestTimestamps w with
  | [] => 0
  | oldestRequest :: _ =>
      let timeSinceOldest := (now - oldestRequest)%Z in
      if (RATE_LIMIT_WINDOW_MS <=? timeSinceOldest)%Z then 0
      else (RATE_LIMIT_WINDOW_MS - timeSinceOldest)%Z
  end.

(** The admission step at the head of the loop of [_processQueue]: the wait
    before the next send, and the endpoint state after the check. [now1] is
    the clock read by [_canMakeRequest], [now2] the one read by
    [_calculateDelay]. *)
Definition admission (now1 now2 : Z) (w : DiscordWebhook) : Z * DiscordWebhook :=
  let '(ok, w') := _canMakeRequest now1 w in
  if ok then (0%Z, w') else (_calculateDelay now2 w', w').

(** [this.requestTimestamps.push(Date.now())] after a send. *)
Definition recordRequest (now : Z) (w : DiscordWebhook) : DiscordWebhook :=
  mkWebhook (webhookUrl w) (requestTimestamps w ++ [now]).

(** The states an endpoint goes through while the clock, which never runs
    backwards, advances: [reachable t w] says that [w] is reached at a
    moment when the clock shows [t]. *)
Inductive reachable : Z -> DiscordWebhook -> Prop :=
| reach_new url t : reachable t (new_DiscordWebhook url)
| reach_tick t t' w : reachable t w -> (t <= t')%Z -> reachable t' w
| reach_check t w : reachable t w -> reachable t (snd (_canMakeRequest t w))
| reach_record t w : reachable t w -> reachable t (recordRequest t w).

(** The oldest timestamp of a window, whatever its position. *)
Definition oldest (window : list Z) : option Z :=
  match window with
  | [] => None
  | t :: rest => Some (foldl Z.min t rest)
  end.

(** *** One send with its retries *)

(** A JavaScript number that is an integer, or [NaN]. *)
Inductive JSNum := Num (z : Z) | NaN.

Definition JSNum_mul (a : JSNum) (k : Z) : JSNum :=
  match a with Num z => Num (z * k) | NaN => NaN end.

Definition is_space (a : ascii) : bool :=
  let n := Ascii.nat_of_ascii a in
  Nat.eqb n 32 || (Nat.leb 9 n && Nat.leb n 13).

Fixpoint trimStart (s : string) : string :=
  match s with
  | String a rest => if is_space a then trimStart rest else s
  | EmptyString => s
  end.

Definition digitValue (radix : Z) (a : ascii) : option Z :=
  let n := Z.of_nat (Ascii.nat_of_ascii a) in
  let v := if (48 <=? n)%Z && (n <=? 57)%Z then Some (n - 48)%Z
           else if (97 <=? n)%Z && (n <=? 122)%Z then Some (n - 87)%Z
           else if (65 <=? n)%Z && (n <=? 90)%Z then Some (n - 55)%Z
           else None in
  match v with
  | Some d => if (d <? radix)%Z then Some d else None
  | None => None
  end.

(** The value of the longest prefix of digits; [None] when it is empty. *)
Fixpoint parseDigits (radix : Z) (s : string) (acc : option Z) : option Z :=
  match s with
  | String a rest =>
      match digitValue radix a with
      | Some d =>
          parseDigits radix rest
            (Some (match acc with Some n => n * radix + d | None => d end)%Z)
      | None => acc
      end
  | EmptyString => acc
  end.

(** An optional sign in front of the digits. *)
Definition splitSign (s : string) : Z * string :=
  match s with
  | String a rest =>
      if Ascii.eqb a "-" then ((-1)%Z, rest)
      else if Ascii.eqb a "+" then (1%Z, rest)
      else (1%Z, s)
  | EmptyString => (1%Z, s)
  end.

(** The prefix [0x] or [0X] selects radix 16; the radix is 10 without it. *)
Definition splitRadix (s : string) : Z * string :=
  match s with
  | String a (String b rest) =>
      if Ascii.eqb a "0" && (Ascii.eqb b "x" || Ascii.eqb b "X")
      then (16%Z, rest)
      else (10%Z, s)
  | _ => (10%Z, s)
  end.

(** [parseInt(s)] without a radix argument: leading white space is skipped,
    the digits end at the first character that is not one, and the result
    is [NaN] when there is no digit. The value is exact as long as it is a
    safe integer. *)
Definition parseInt (s : string) : JSNum :=
  let '(sign, s) := splitSign (trimStart s) in
  let '(radix, s) := splitRadix s in
  match parseDigits radix s None with
  | Some n => Num (sign * n)
  | None => NaN
  end.

Record JSError := mkError {
  name : string;
  message : string
}.

(** What [_sendWebhook] reads of a response. [text] and [json] are [None]
    when reading the body fails. *)
Record Response := mkResponse {
  status : Z;
  retryAfter : option string;      (* headers.get('Retry-After') *)
  text : option string;
  json : option string
}.

Definition ok (r : Response) : bool :=
  (200 <=? status r)%Z && (status r <=? 299)%Z.

(** The outcome of [await fetch(...)]. *)
Inductive FetchOutcome :=
| Rejects (e : JSError)
| Resolves (r : Response).

(** The value a send resolves to. *)
Inductive SendValue :=
| Body (parsed : string)
| DefaultSuccess.                  (* { success: true } *)

(** What a send does, in order. *)
Inductive Event :=
| Fetch (retryCount : nat)
| Sleep (ms : JSNum).

Definition maxRetries : nat := 3.
Definition baseDelay : Z := 1000.

(** [baseDelay * Math.pow(2, retryCount)] *)
Definition backoff (retryCount : nat) : JSNum :=
  Num (baseDelay * 2 ^ Z.of_nat retryCount).

(** A string is truthy unless it is empty; [null] is falsy. *)
Definition truthy (s : option string) : bool :=
  match s with
  | Some (String _ _) => true
  | _ => false
  end.

Definition rateLimitDelay (r : Response) (retryCount : nat) : JSNum :=
  if truthy (retryAfter r)
  then JSNum_mul (parseInt (default "" (retryAfter r))) 1000
  else backoff retryCount.

Definition httpError (r : Response) : JSError :=
  let errorText := default "Unknown error" (text r) in
  mkError "Error" ("HTTP " +:+ pretty (status r) +:+ ": " +:+ errorText).

(** How the [try] block of one invocation ends. *)
Inductive TryResult :=
| Return (v : SendValue)
| RetryRateLimited (delay : JSNum)
| Throw (error : JSError).

Definition tryBlock (fetched : FetchOutcome) (retryCount : nat) : TryResult :=
  match fetched with
  | Rejects error => Throw error
  | Resolves response =>
      if (status response =? 429)%Z && Nat.ltb retryCount maxRetries
      then RetryRateLimited (rateLimitDelay response retryCount)
      else if negb (ok response) then Throw (httpError response)
      else Return (match json response with
                   | Some b => Body b
                   | None => DefaultSuccess
                   end)
  end.

(** The guard of the [catch] block. *)
Definition retryable (error : JSError) (retryCount : nat) : bool :=
  Nat.ltb retryCount maxRetries && negb (String.eqb (name error) "AbortError").

Definition Outcome : Type := JSError + SendValue.

(** A value together with the equation that says where it comes from. *)
Definition inspect {A} (a : A) : {b : A | a = b} := exist _ a eq_refl.

(** [_sendWebhook(payload, retryCount = 0)]. [net k] is the outcome of the
    request made by the invocation whose retry count is [k]. The result is
    the list of the requests and waits made, with the value the returned
    promise settles to ([inl] when it rejects). *)
Equations? _sendWebhook (net : nat -> FetchOutcome) (retryCount : nat)
  : list Event * Outcome by wf (maxRetries - retryCount) lt :=
_sendWebhook net retryCount with inspect (tryBlock (net retryCount) retryCount) := {
  | exist _ (Return v) _ => ([Fetch retryCount], inr v)
  | exist _ (RetryRateLimited delay) Htry =>
      let r := _sendWebhook net (S retryCount) in
      (Fetch retryCount :: Sleep delay :: fst r, snd r)
  | exist _ (Throw error) _ with inspect (retryable error retryCount) := {
      | exist _ true Hretry =>
          let r := _sendWebhook net (S retryCount) in
          (Fetch retryCount :: Sleep (backoff retryCount) :: fst r, snd r)
      | exist _ false _ => ([Fetch retryCount], inl error)
    }
}.
Proof.
  - unfold tryBlock in Htry. destruct (net retryCount); [discriminate|].
    destruct (Nat.ltb_spec retryCount maxRetries); [unfold maxRetries in *; lia|].
    rewrite andb_false_r in Htry. destruct (negb (ok r)); discriminate.
  - unfold retryable in Hretry.
    destruct (Nat.ltb_spec retryCount maxRetries);
      [unfold maxRetries in *; lia|discriminate].
Qed.

(** *** Fan-out to all endpoints *)

Record WebhookResult := mkResult {
  webhookIndex : nat;
  success : bool;
  error : option string
}.

(** A settled promise, as [Promise.allSettled] reports it. *)
Inductive Settled :=
| Fulfilled (value : WebhookResult)
| Rejected (reason : option JSError).

(** [DiscordWebhook.postVideoNotification(video)], awaited: the promise
    settles as the send of the queued payload does. *)
Definition postVideoNotification (net : nat -> FetchOutcome) : Outcome :=
  snd (_sendWebhook net 0).

(** The asynchronous function mapped over [this.webhooks]. *)
Definition postToWebhook (index : nat) (net : nat -> FetchOutcome) : Settled :=
  match postVideoNotification net with
  | inr _ => Fulfilled (mkResult index true None)
  | inl error => Fulfilled (mkResult index false (Some (message error)))
  end.

(** [result.reason?.message || 'Unknown error'] *)
Definition reasonMessage (reason : option JSError) : string :=
  match reason with
  | Some e => if truthy (Some (message e)) then message e else "Unknown error"
  | None => "Unknown error"
  end.

(** The loop over the settled promises, pushing one result for each. *)
Definition collectResults (webhookResults : list Settled) : list WebhookResult :=
  foldl (fun results '(index, result) =>
           match result with
           | Fulfilled value => results ++ [value]
           | Rejected reason =>
               results ++ [mkResult index false (Some (reasonMessage reason))]
           end)
        [] (imap pair webhookResults).

(** [MultiDiscordWebhook.postVideoNotification(video)]: one endpoint per
    element of [webhooks], each with the network it talks to. *)
Definition Multi_postVideoNotification (webhooks : list (nat -> FetchOutcome))
  : list WebhookResult :=
  let webhookResults := imap postToWebhook webhooks in
  collectResults webhookResults.

(** [DiscordWebhook.postVideoNotifications(videos)]: one result per video,
    in order; [net video] is the network met while [video] is sent. *)
Definition postVideoNotifications
    (net : Cache.Video -> nat -> FetchOutcome) (videos : list Cache.Video)
  : list (string * bool) :=
  foldl (fun results video =>
           match postVideoNotification (net video) with
           | inr _ => results ++ [(Cache.id video, true)]
           | inl _ => results ++ [(Cache.id video, false)]
           end)
        [] videos.

End Discord.

(* ===================================================================== *)
(** ** index.js                                                          *)
(* ===================================================================== *)

Module Index.

Record Config := mkConfig {
  testMode : bool;
  developmentMode : bool
}.

Definition modeOf (config : Config) : string :=
  if testMode config then "test"
  else if developmentMode config then "development"
  else "production".

(** The result of one pass, with what the pass did to its collaborators:
    the list handed to the dispatcher, when it was called. *)
Record Pass := mkPass {
  processed : nat;
  posted : nat;
  dispatched : option (list Cache.Video);
  cache : Cache.VideoCache;
  fs : Cache.FS
}.

Definition countSuccess (results : list (string * bool)) : nat :=
  length (List.filter (fun r => snd r) results).

(** [processVideos(videos)]: [discordWebhook] is [None] when no dispatcher
    was built, [now] is the clock at the moment the cache is saved. The
    variant of the file that posts to several webhooks differs in how it
    counts the posts and ends with the same call of [save]. *)
Definition processVideos (config : Config)
    (discordWebhook : option (list Cache.Video -> list (string * bool)))
    (now : Z) (videos : list Cache.Video)
    (videoCache : Cache.VideoCache) (files : Cache.FS) : Pass :=
  match videos with
  | [] => mkPass 0 0 None videoCache files
  | _ =>
      let mode := modeOf config in
      let isInitialRun := Cache.isInitialRun videoCache in
      let '(newVideos, videoCache) :=
        Cache.processVideos videos isInitialRun mode videoCache in
      match newVideos with
      | [] => mkPass (length videos) 0 None videoCache files
      | _ =>
          let '(postedCount, sent) :=
            match testMode config, discordWebhook with
            | false, Some postVideoNotifications =>
                (countSuccess (postVideoNotifications newVideos), Some newVideos)
            | _, _ => (0, None)
            end in
          let '(videoCache, files) := Cache.save false now videoCache files in
          mkPass (length videos) postedCount sent videoCache files
      end
  end.

End Index.

(* ===================================================================== *)
(** ** discord.js: the worker loop of an endpoint, with its clock        *)
(* ===================================================================== *)

Module Queue.

Import Discord.

(** The least time a timer set to [ms] takes: [setTimeout] treats [NaN]
    and negative delays as no delay. *)
Definition timerDelay (ms : JSNum) : Z :=
  match ms with
  | Num z => Z.max 0 z
  | NaN => 0%Z
  end.

(** The time spent in the waits of a send. *)
Definition sleepTime (trace : list Event) : Z :=
  foldr (fun e acc =>
           match e with
           | Sleep ms => (timerDelay ms + acc)%Z
           | Fetch _ => acc
           end) 0%Z trace.

(** An entry of [requestQueue], with what the environment does while it is
    served: the network it meets, and by how much the clock advances at each
    suspension beyond what the code asks for. *)
Record Job := mkJob {
  video : Cache.Video;
  net : nat -> FetchOutcome;
  idle : Z;        (* before the check at the head of the loop *)
  lag : Z;         (* between the clock reads of the check and of the delay *)
  oversleep : Z;   (* by which the rate-limit timer fires late *)
  latency : Z      (* spent in the requests of the send and in late timers *)
}.

(** What the worker did for one entry. *)
Record Sent := mkSent {
  job : Job;
  delay : Z;            (* the wait asked of [_sleep], 0 when none *)
  startedAt : Z;        (* the clock when [_sendWebhook] is called *)
  settledAt : Z;        (* the clock when it settles *)
  result : Outcome      (* given to [resolve] or to [reject] *)
}.

(** The loop [while (this.requestQueue.length > 0)] of [_processQueue],
    entered when the clock shows [clock]. *)
Fixpoint drain (clock : Z) (e : DiscordWebhook) (queue : list Job)
  : list Sent * DiscordWebhook * Z :=
  match queue with
  | [] => ([], e, clock)
  | j :: rest =>
      let now1 := (clock + idle j)%Z in
      let '(ok, e1) := _canMakeRequest now1 e in
      let '(asked, wake) :=
        if ok then (0%Z, now1)
        else
          let now2 := (now1 + lag j)%Z in
          let d := _calculateDelay now2 e1 in
          (d, (now2 + d + oversleep j)%Z) in
      let r := _sendWebhook (net j) 0 in
      let done := (wake + sleepTime (fst r) + latency j)%Z in
      let e2 :=
        match snd r with
        | inr _ => recordRequest done e1
        | inl _ => e1
        end in
      let '(log, e3, t) := drain done e2 rest in
      (mkSent j asked wake done (snd r) :: log, e3, t)
  end.

(** The queue state of an endpoint. *)
Record Worker := mkWorker {
  endpoint : DiscordWebhook;
  requestQueue : list Job;
  isProcessing : bool
}.

(** [_processQueue()]. The queue holds every entry pushed before the loop
    ends: an entry pushed while the loop runs is served by that same loop. *)
Definition _processQueue (clock : Z) (w : Worker) : list Sent * Worker * Z :=
  if isProcessing w || Nat.eqb (length (requestQueue w)) 0
  then ([], w, clock)
  else
    let '(log, e, t) := drain clock (endpoint w) (requestQueue w) in
    (log, mkWorker e [] false, t).

(** [postVideoNotification(video)] on an idle endpoint: the entry is pushed
    and the worker started. *)
Definition postVideoNotification (clock : Z) (e : DiscordWebhook) (j : Job)
  : list Sent * Worker * Z :=
  _processQueue clock (mkWorker e [j] false).

(** [postVideoNotifications(videos)]: each notification is awaited before
    the next one is queued. The result pairs each video with its
    [success] flag. *)
Fixpoint postVideoNotifications (clock : Z) (e : DiscordWebhook)
    (jobs : list Job) : list (string * bool) * list Sent * DiscordWebhook * Z :=
  match jobs with
  | [] => ([], [], e, clock)
  | j :: rest =>
      let '(log1, w, t) := postVideoNotification clock e j in
      let flag :=
        match log1 with
        | s :: _ => match result s with inr _ => true | inl _ => false end
        | [] => false
        end in
      let '(results, log, e', t') := postVideoNotifications t (endpoint w) rest in
      ((Cache.id (video j), flag) :: results, log1 ++ log, e', t')
  end.

(** [testWebhook()]: the test payload is sent at once, past the queue. *)
Definition testWebhook (net : nat -> FetchOutcome) : bool * option string :=
  match snd (_sendWebhook net 0) with
  | inr _ => (true, None)
  | inl error => (false, Some (message error))
  end.

(** [MultiDiscordWebhook.testWebhooks()] *)
Definition testWebhooks (webhooks : list (nat -> FetchOutcome))
  : list WebhookResult :=
  let settled :=
    imap (fun index net =>
            let '(ok, err) := testWebhook net in
            Fulfilled (mkResult (index + 1) ok err)) webhooks in
  foldl (fun results '(index, res) =>
           match res with
           | Fulfilled value => results ++ [value]
           | Rejected reason =>
               results ++ [mkResult (index + 1) false
                                    (Some (reasonMessage reason))]
           end)
        [] (imap pair settled).

(** [MultiDiscordWebhook.postVideoNotifications(videos)]: [webhooks] gives,
    for each endpoint, the network met while a given video is sent. *)
Definition Multi_postVideoNotifications
    (webhooks : list (Cache.Video -> nat -> FetchOutcome))
    (videos : list Cache.Video) : list (string * list WebhookResult) :=
  foldl (fun allResults v =>
           let webhookResults :=
             Multi_postVideoNotification (map (fun w => w v) webhooks) in
           allResults ++ [(Cache.id v, webhookResults)])
        [] videos.

End Queue.

(* ===================================================================== *)
(** ** index.js: the polling cycle and the shutdown                      *)
(* ===================================================================== *)

Module Cycle.

(** The module-level variables of [index.js]. *)
Record App := mkApp {
  config : Index.Config;
  discordWebhook : option (list Cache.Video -> list (string * bool));
  isShuttingDown : bool;
  pollingCycleCount : nat;
  videoCache : Cache.VideoCache;
  disk : Cache.FS
}.

(** [performPollingCycle()]. [fetched] is what [fetchAllVideos] resolves
    to, [None] when it rejects: the error is caught and logged. *)
Definition performPollingCycle (fetched : option (list Cache.Video)) (now : Z)
    (app : App) : App :=
  if isShuttingDown app then app
  else
    let count := S (pollingCycleCount app) in
    match fetched with
    | None =>
        mkApp (config app) (discordWebhook app) false count
              (videoCache app) (disk app)
    | Some videos =>
        let p := Index.processVideos (config app) (discordWebhook app) now
                   videos (videoCache app) (disk app) in
        let cache :=
          if Nat.eqb (count mod 50) 0
          then Cache.cleanup 10000 (Index.cache p)
          else Index.cache p in
        mkApp (config app) (discordWebhook app) false count cache (Index.fs p)
    end.


End Cycle.

(* ===================================================================== *)
(** ** youtube.js: keyword filter and the videos of all sources          *)
(* ===================================================================== *)

Module Youtube.









Section WithLowerCase.

(** [String.prototype.toLowerCase] *)
Variable toLowerCase : string -> string.




End WithLowerCase.

End Youtube.

(* ===================================================================== *)
(** ** logger.js: the threshold of the logger                            *)
(* ===================================================================== *)

Module Logger.

(** [LOG_LEVELS[name]]: [None] is [undefined]. The names that an object
    inherits hold lower-case letters and are never given by
    [toUpperCase]. *)
Definition LOG_LEVELS (name : string) : option Z :=
  if String.eqb name "DEBUG" then Some 0%Z
  else if String.eqb name "INFO" then Some 1%Z
  else if String.eqb name "WARN" then Some 2%Z
  else if String.eqb name "ERROR" then Some 3%Z
  else None.

Section WithUpperCase.

(** [String.prototype.toUpperCase] *)
Variable toUpperCase : string -> string.

Record Logger := mkLogger {
  level : Z;
  levelName : string
}.

(** [constructor(level = 'INFO')]: [x || LOG_LEVELS.INFO] gives the second
    operand when [x] is [undefined] and when it is [0]. *)
Definition new_Logger (level : string) : Logger :=
  let found := LOG_LEVELS (toUpperCase level) in
  let threshold :=
    match found with
    | Some 0%Z | None => 1%Z
    | Some n => n
    end in
  mkLogger threshold (toUpperCase level).

(** [_shouldLog(level)]: a comparison with [undefined] is false. *)
Definition _shouldLog (logger : Logger) (name : string) : bool :=
  match LOG_LEVELS name with
  | Some n => (level logger <=? n)%Z
  | None => false
  end.

End WithUpperCase.

End Logger.

(* ===================================================================== *)
(** ** [config.js]: the configuration read from the environment          *)
(* ===================================================================== *)

Module Configuration.

(** What [loadConfig] reads of [process.env]; a variable that is not set
    is [None]. *)
Record Env := mkEnv {
  ET_CHANNEL_IDS : option string;
  ET_PLAYLIST_IDS : option string;
  ET_KEYWORDS : option string;
  ET_MATCH_TYPE : option string;
  ET_TEST_MODE : option string;
  ET_DISCORD_WEBHOOK_URL : option string;
  ET_POLL_INTERVAL_SECONDS : option string;
  ET_LOG_LEVEL : option string;
  ET_CACHE_FILE : option string;
  ET_DEVELOPMENT_MODE : option string;
  NODE_ENV : option string
}.

Record Config := mkConfig {
  channelIds : list string;
  playlistIds : list string;
  keywords : list string;
  matchType : string;
  discordWebhookUrl : option string;
  pollIntervalSeconds : Z;
  cacheFile : option string;
  logLevel : string;
  testMode : bool;
  developmentMode : bool
}.

(** A call returns, or throws a [ConfigError] with its message. *)
Inductive Result (A : Type) :=
| Return (a : A)
| ConfigError (message : string).

Arguments Return {A} a.
Arguments ConfigError {A} message.

Definition bind {A B} (r : Result A) (f : A -> Result B) : Result B :=
  match r with
  | Return a => f a
  | ConfigError message => ConfigError message
  end.

Notation "x <- r ;; k" := (bind r (fun x => k))
  (at level 100, r at next level, right associativity).

(** [list.map(f)] where [f] may throw: the first throw ends the call. *)
Fixpoint mapThrowing {A B} (f : A -> Result B) (l : list A) : Result (list B) :=
  match l with
  | [] => Return []
  | a :: rest =>
      b <- f a ;;
      bs <- mapThrowing f rest ;;
      Return (b :: bs)
  end.

(** [!value] for a string that may be undefined. *)
Definition falsy (value : option string) : bool :=
  match value with
  | None => true
  | Some s => String.eqb s ""
  end.

(** [value === literal] *)
Definition strictEq (value : option string) (literal : string) : bool :=
  match value with
  | None => false
  | Some s => String.eqb s literal
  end.

(** [s.split(',')] *)
Fixpoint split (s : string) : list string :=
  match s with
  | EmptyString => [""]
  | String c rest =>
      if Ascii.eqb c ","
      then "" :: split rest
      else match split rest with
           | item :: items => String c item :: items
           | [] => [String c ""]
           end
  end.

(** [parseInt(s, 10)]: as [parseInt(s)], but a prefix [0x] does not select
    radix 16. *)
Definition parseInt10 (s : string) : Discord.JSNum :=
  let '(sign, s) := Discord.splitSign (Discord.trimStart s) in
  match Discord.parseDigits 10 s None with
  | Some n => Discord.Num (sign * n)
  | None => Discord.NaN
  end.

Definition quote : string := String (Ascii.ascii_of_nat 34) "".

Definition validLevels : list string := ["DEBUG"; "INFO"; "WARN"; "ERROR"].

Section WithBuiltins.

(** [s.trim()], [s.toLowerCase()], [s.toUpperCase()], and [new URL(s)]: the
    message of the error it throws, or the [hostname] and the [pathname]
    of the URL. *)
Variable trim : string -> string.
Variable toLowerCase : string -> string.
Variable toUpperCase : string -> string.
Variable URL : string -> string + (string * string).

(** [parseCommaSeparated(value, name)] *)
Definition parseCommaSeparated (value : option string) : list string :=
  match value with
  | None => []
  | Some value =>
      if String.eqb value "" || String.eqb (trim value) "" then []
      else List.filter (fun item => Nat.ltb 0 (String.length item))
                       (map (fun item => trim item) (split value))
  end.

(** [validateChannelId(channelId)] *)
Definition validateChannelId (channelId : string) : Result string :=
  if negb (String.prefix "UC" channelId)
     || negb (Nat.eqb (String.length channelId) 24)
  then ConfigError ("Invalid channel ID format: " +:+ channelId
                    +:+ ". Must start with 'UC' and be 24 characters long.")
  else Return channelId.

(** [validatePlaylistId(playlistId)] *)
Definition validatePlaylistId (playlistId : string) : Result string :=
  if negb (String.prefix "PL" playlistId)
     || negb (Nat.eqb (String.length playlistId) 34)
  then ConfigError ("Invalid playlist ID format: " +:+ playlistId
                    +:+ ". Must start with 'PL' and be 34 characters long.")
  else Return playlistId.

(** [validateWebhookUrl(url)] *)
Definition validateWebhookUrl (url : option string) : Result string :=
  match url with
  | None => ConfigError "ET_DISCORD_WEBHOOK_URL is required"
  | Some url =>
      if String.eqb url "" then ConfigError "ET_DISCORD_WEBHOOK_URL is required"
      else
        match URL url with
        | inl message => ConfigError ("Invalid webhook URL format: " +:+ message)
        | inr (hostname, pathname) =>
            if negb (String.eqb hostname "discord.com")
               && negb (String.eqb hostname "discordapp.com")
            then ConfigError
                   "Discord webhook URL must be from discord.com or discordapp.com"
            else if negb (String.prefix "/api/webhooks/" pathname)
            then ConfigError "Invalid Discord webhook URL format"
            else Return url
        end
  end.

(** [loadConfig()] *)
Definition loadConfig (env : Env) : Result Config :=
  let rawChannelIds := parseCommaSeparated (ET_CHANNEL_IDS env) in
  channelIds <- mapThrowing validateChannelId rawChannelIds ;;
  let rawPlaylistIds := parseCommaSeparated (ET_PLAYLIST_IDS env) in
  playlistIds <- mapThrowing validatePlaylistId rawPlaylistIds ;;
  sources <- (if Nat.eqb (length channelIds) 0 && Nat.eqb (length playlistIds) 0
        then ConfigError
               "At least one of ET_CHANNEL_IDS or ET_PLAYLIST_IDS must be provided"
        else Return tt) ;;
  let keywords := parseCommaSeparated (ET_KEYWORDS env) in
  matchType <-
    (match ET_MATCH_TYPE env with
     | Some value =>
         if String.eqb value "" then Return "any"
         else
           let matchType := toLowerCase value in
           if negb (String.eqb matchType "any") && negb (String.eqb matchType "all")
           then ConfigError ("ET_MATCH_TYPE must be either " +:+ quote +:+ "any"
                             +:+ quote +:+ " or " +:+ quote +:+ "all" +:+ quote)
           else Return matchType
     | None => Return "any"
     end) ;;
  let testMode := strictEq (ET_TEST_MODE env) "true" in
  discordWebhookUrl <-
    (if negb testMode
     then url <- validateWebhookUrl (ET_DISCORD_WEBHOOK_URL env) ;;
          Return (Some url)
     else Return None) ;;
  pollIntervalSeconds <-
    (if falsy (ET_POLL_INTERVAL_SECONDS env) then Return 300%Z
     else
       match parseInt10 (default "" (ET_POLL_INTERVAL_SECONDS env)) with
       | Discord.NaN =>
           ConfigError "ET_POLL_INTERVAL_SECONDS must be a number >= 60"
       | Discord.Num interval =>
           if (interval <? 60)%Z
           then ConfigError "ET_POLL_INTERVAL_SECONDS must be a number >= 60"
           else Return interval
       end) ;;
  logLevel <-
    (if falsy (ET_LOG_LEVEL env) then Return "INFO"
     else
       let logLevel := toUpperCase (default "" (ET_LOG_LEVEL env)) in
       if negb (existsb (String.eqb logLevel) validLevels)
       then ConfigError "ET_LOG_LEVEL must be one of: DEBUG, INFO, WARN, ERROR"
       else Return logLevel) ;;
  let cacheFile :=
    if falsy (ET_CACHE_FILE env) then None else ET_CACHE_FILE env in
  let developmentMode :=
    strictEq (ET_DEVELOPMENT_MODE env) "true"
    || strictEq (NODE_ENV env) "development" in
  Return (mkConfig channelIds playlistIds keywords matchType discordWebhookUrl
                   pollIntervalSeconds cacheFile logLevel testMode
                   developmentMode).

End WithBuiltins.

End Configuration.

(* ===================================================================== *)
(** ** Vocabulary of the statements, and sample data                     *)
(* ===================================================================== *)

Section Vocabulary.

Import Cache Discord.

Definition video (i : string) (kind src : string) (date : Z) : Cache.Video :=
  Cache.mkVideo i ("title " +:+ i) ("https://www.youtube.com/watch?v=" +:+ i)
                date "channel" None kind src.

Definition va := video "a" "channel" "S1" 100.
Definition vb := video "b" "channel" "S1" 300.
Definition vc := video "c" "playlist" "S2" 200.

Definition vb' := video "b" "channel" "S1" 50.

(** [extends s s']: [s'] keeps [s] as it is and appends identifiers that
    were not in [s]. *)
Definition extends (s s' : list string) : Prop :=
  exists fresh, s' = s ++ fresh /\ forall x, x ∈ fresh -> x ∉ s.

(** The three policies, and the one that a call of [processVideos] follows:
    the order of the tests is the order of the branches of the function. *)
Inductive Policy := BootstrapQuiet | Sampled | Full.

Definition policyOf (isInitialRun : bool) (mode : string) : Policy :=
  if isInitialRun && String.eqb mode "production" then BootstrapQuiet
  else if String.eqb mode "development" then Sampled
  else Full.

(** [stored_le before after]: a timestamp stored before is still stored
    after, and is not older. *)
Definition stored_le (before after : option Z) : Prop :=
  match before with
  | None => True
  | Some t => exists t', after = Some t' /\ (t <= t')%Z
  end.

(** The operations that change a cache once it is loaded. *)
Inductive Op :=
| OpMarkAsSeen (videoId : string)
| OpMarkMultipleAsSeen (videoIds : list string)
| OpUpdateLatestTimestamp (sourceId : string) (timestamp : Z)
| OpProcessVideos (videos : list Video) (isInitialRun : bool) (mode : string)
| OpCleanup (maxEntries : Z)
| OpSave (force : bool) (now : Z)
| OpShutdown (now : Z).

Definition perform (st : VideoCache * FS) (op : Op) : VideoCache * FS :=
  let '(c, fs) := st in
  match op with
  | OpMarkAsSeen videoId => (markAsSeen videoId c, fs)
  | OpMarkMultipleAsSeen videoIds => (markMultipleAsSeen videoIds c, fs)
  | OpUpdateLatestTimestamp sourceId timestamp =>
      (updateLatestTimestamp sourceId timestamp c, fs)
  | OpProcessVideos videos isInitialRun mode =>
      (snd (processVideos videos isInitialRun mode c), fs)
  | OpCleanup maxEntries => (cleanup maxEntries c, fs)
  | OpSave force now => save force now c fs
  | OpShutdown now => shutdown now c fs
  end.

(** A cache from its construction on: loaded once, then operated on. *)
Definition lifetime (file : option string) (start : Z) (fs : FS)
    (ops : list Op) : VideoCache * FS :=
  foldl perform (initialize fs (new_VideoCache file start), fs) ops.

(** What [save] writes when it does write. *)
Definition snapshot (now : Z) (c : VideoCache) : CacheData :=
  mkData (Some (seenVideoIds c))
         (Some (Object_fromEntries (latestVideoTimestamps c)))
         now "1.0.0".

(** The cache that a new process builds from the state file. *)
Definition load (file : option string) (start : Z) (fs : FS) : VideoCache :=
  initialize fs (new_VideoCache file start).

(** The round trip as the specification words it: after [save], a load
    gives a cache with the same seen set and the same timestamps. *)
Definition round_trips (force : bool) (now start : Z) (c : VideoCache)
    (fs : FS) : Prop :=
  let loaded := load (cacheFile c) start (snd (save force now c fs)) in
  (forall x, x ∈ seenVideoIds loaded <-> x ∈ seenVideoIds c)
  /\ latestVideoTimestamps loaded = latestVideoTimestamps c.

Definition sample_cache : VideoCache :=
  mkCache (Some "cache.json") ["x"; "y"]
          (<["channel:C1" := 1735689600000%Z]> ∅) 1000.

Definition empty_disk : FS := mkFS ∅ true.

(** The delivery list of a pass: what the cache returns for the mode and
    the bootstrap status of the pass. *)
Definition deliveryList (config : Index.Config) (videos : list Video)
    (c : VideoCache) : list Video :=
  fst (processVideos videos (isInitialRun c) (Index.modeOf config) c).

Definition processedCache (config : Index.Config) (videos : list Video)
    (c : VideoCache) : VideoCache :=
  snd (processVideos videos (isInitialRun c) (Index.modeOf config) c).

(** The claim as the specification words it: after a pass that delivers,
    the state of the cache is in the state file. *)
Definition saved_after_delivery (config : Index.Config)
    (dw : option (list Video -> list (string * bool)))
    (now : Z) (videos : list Video) (c : VideoCache) (fs : FS) : Prop :=
  let p := Index.processVideos config dw now videos c fs in
  forall path delivered,
    statePath c = Some path ->
    Index.dispatched p = Some delivered -> delivered <> [] ->
    exists d,
      files (Index.fs p) !! path = Some (Document d)
      /\ cd_seenVideoIds d = Some (seenVideoIds (Index.cache p)).

Definition production : Index.Config := Index.mkConfig false false.

Definition allPosted (videos : list Video) : list (string * bool) :=
  map (fun v => (id v, true)) videos.

Definition running_cache : VideoCache :=
  mkCache (Some "cache.json") ["old"] ∅ 1000.

(** The window of an endpoint is in the order of the clock. *)
Definition chronological (t : Z) (window : list Z) : Prop :=
  StronglySorted Z.le window /\ Forall (fun x => (x <= t)%Z) window.

Definition inWindow (now : Z) (window : list Z) : list Z :=
  List.filter (fun timestamp => (now - timestamp <? RATE_LIMIT_WINDOW_MS)%Z)
              window.

Definition busy_endpoint : DiscordWebhook :=
  foldl (fun w t => recordRequest t w) (new_DiscordWebhook "https://discord.test/hook")
        [0; 100; 200; 300; 400]%Z.

(** The waits of a send, in order: the [i]-th one precedes retry [i]. *)
Definition sleeps (trace : list Event) : list JSNum :=
  omap (fun e => match e with Sleep ms => Some ms | Fetch _ => None end) trace.

(** The retry counts of the requests of a send, in order. *)
Definition fetches (trace : list Event) : list nat :=
  omap (fun e => match e with Fetch k => Some k | Sleep _ => None end) trace.

Definition isAbort (o : FetchOutcome) : Prop :=
  match o with
  | Rejects e => name e = "AbortError"
  | Resolves _ => False
  end.

(** The error with which an attempt fails; [None] for a response that is
    [ok]. *)
Definition failureOf (o : FetchOutcome) : option JSError :=
  match o with
  | Rejects e => Some e
  | Resolves r => if ok r then None else Some (httpError r)
  end.

(** [retried o k d]: the attempt with retry count [k], which ended as [o],
    may be followed by a retry after a wait of [d] ms. The attempt failed,
    not by a cancellation; the wait is the Retry-After header in seconds
    times 1000 after a 429 that carries a header that is not empty, and
    1000 * 2^k in every other case. *)
Definition retried (o : FetchOutcome) (k : nat) (d : JSNum) : Prop :=
  match o with
  | Rejects e => name e <> "AbortError" /\ d = Num (1000 * 2 ^ Z.of_nat k)
  | Resolves r =>
      ok r = false
      /\ d = match status r, retryAfter r with
             | 429%Z, Some (String a rest) =>
                 JSNum_mul (parseInt (String a rest)) 1000
             | _, _ => Num (1000 * 2 ^ Z.of_nat k)
             end
  end.

(** [settled o k res]: [res] is what the send settles to when its last
    attempt, with retry count [k], ended as [o]. A failure is final only
    when three retries were made or the failure is a cancellation. *)
Definition settled (o : FetchOutcome) (k : nat) (res : Outcome) : Prop :=
  match failureOf o with
  | None => exists v, res = inr v
  | Some e => res = inl e /\ (k = 3 \/ isAbort o)
  end.

Definition unreachable_host (k : nat) : FetchOutcome :=
  Rejects (mkError "TypeError" "fetch failed").

Definition rate_limited (k : nat) : FetchOutcome :=
  Resolves (mkResponse 429 (Some "2") (Some "slow down") None).

Definition cancelled (k : nat) : FetchOutcome :=
  Rejects (mkError "AbortError" "This operation was aborted").

(** The result recorded for a settled promise at position [index]. *)
Definition resultOf (index : nat) (s : Settled) : WebhookResult :=
  match s with
  | Fulfilled value => value
  | Rejected reason => mkResult index false (Some (reasonMessage reason))
  end.

(** The outcome recorded for an endpoint in isolation. *)
Definition outcomeOf (index : nat) (net : nat -> FetchOutcome) : WebhookResult :=
  match postVideoNotification net with
  | inr _ => mkResult index true None
  | inl e => mkResult index false (Some (message e))
  end.

Definition healthy (k : nat) : FetchOutcome :=
  Resolves (mkResponse 204 None None None).





(** *** Vocabulary of the further properties *)

(** One step of the loop of development mode, on the pair
    [(devVideos, seenSources)]. *)
Definition sampleStep
  : list Video * list string -> Video -> list Video * list string :=
  fun '(devVideos, seenSources) video =>
    let sourceKey := sourceKeyOf video in
    if negb (JS.Set_has sourceKey seenSources)
    then (devVideos ++ [video], JS.Set_add sourceKey seenSources)
    else (devVideos, seenSources).

Definition keysOf (videos : list Video) : list string := map sourceKeyOf videos.

(** The loop state is coherent: the sources recorded are those of the
    videos picked, one video for each. *)
Definition sampleInv (acc : list Video * list string) : Prop :=
  (forall k, k ∈ acc.2 <-> k ∈ keysOf acc.1) /\ NoDup (keysOf acc.1).

Definition isCleanup (op : Op) : bool :=
  match op with
  | OpCleanup _ => true
  | _ => false
  end.

(** The operations that may write the state file. *)
Definition isSave (op : Op) : bool :=
  match op with
  | OpSave _ _ | OpShutdown _ => true
  | _ => false
  end.

(** The timing of an entry is possible: the clock never runs backwards. *)
Definition timingOk (j : Queue.Job) : Prop :=
  (0 <= Queue.idle j)%Z /\ (0 <= Queue.lag j)%Z
  /\ (0 <= Queue.oversleep j)%Z /\ (0 <= Queue.latency j)%Z.

(** The timestamps that the worker records for a log: the settlement times
    of the sends that succeeded. *)
Definition successes (log : list Queue.Sent) : list Z :=
  omap (fun s => match Queue.result s with
                 | inr _ => Some (Queue.settledAt s)
                 | inl _ => None
                 end) log.

(** The number of recorded requests less than 2000 ms old at [t]. *)
Definition recent (t : Z) (history : list Z) : nat :=
  length (inWindow t history).

(** The window of an endpoint is in the order of the clock, not ahead of
    it, and within the quota. *)
Definition withinQuota (clock : Z) (e : DiscordWebhook) : Prop :=
  StronglySorted Z.le (requestTimestamps e)
  /\ Forall (fun t => (t <= clock)%Z) (requestTimestamps e)
  /\ recent clock (requestTimestamps e) <= 5.



(** What a configuration accepted by [loadConfig] satisfies; [URL] is the
    URL parser. *)
Definition validated (URL : string -> string + (string * string))
    (config : Configuration.Config) : Prop :=
  Forall (fun channelId =>
            String.prefix "UC" channelId = true /\ String.length channelId = 24)
         (Configuration.channelIds config)
  /\ Forall (fun playlistId =>
               String.prefix "PL" playlistId = true
               /\ String.length playlistId = 34)
            (Configuration.playlistIds config)
  /\ 0 < length (Configuration.channelIds config)
         + length (Configuration.playlistIds config)
  /\ Forall (fun keyword => keyword <> "") (Configuration.keywords config)
  /\ (Configuration.matchType config = "any"
      \/ Configuration.matchType config = "all")
  /\ (60 <= Configuration.pollIntervalSeconds config)%Z
  /\ Configuration.logLevel config ∈ Configuration.validLevels
  /\ (if Configuration.testMode config
      then Configuration.discordWebhookUrl config = None
      else exists url hostname pathname,
             Configuration.discordWebhookUrl config = Some url
             /\ URL url = inr (hostname, pathname)
             /\ (hostname = "discord.com" \/ hostname = "discordapp.com")
             /\ String.prefix "/api/webhooks/" pathname = true).

Definition sample_URL (url : string) : string + (string * string) :=
  if String.prefix "https://discord.com/" url
  then inr ("discord.com", substring 19 (String.length url - 19) url)
  else inl "Invalid URL".

Definition sample_env : Configuration.Env :=
  Configuration.mkEnv (Some "UCabcdefghijklmnopqrstuv,") None (Some "rocq,,proof")
    (Some "all") None (Some "https://discord.com/api/webhooks/1/token")
    (Some "120") (Some "WARN") None None None.

End Vocabulary.

(* ===================================================================== *)
(** ** Sets in insertion order                                           *)
(* ===================================================================== *)

Section SetFacts.

Lemma Set_has_true x s : JS.Set_has x s = true <-> x ∈ s.
Proof. unfold JS.Set_has. apply bool_decide_eq_true. Qed.

Lemma Set_has_false x s : JS.Set_has x s = false <-> x ∉ s.
Proof. unfold JS.Set_has. apply bool_decide_eq_false. Qed.

(** Adding a present element is the identity. *)
Lemma Set_add_present x s : x ∈ s -> JS.Set_add x s = s.
Proof.
  intros Hin. unfold JS.Set_add.
  apply Set_has_true in Hin. now rewrite Hin.
Qed.

Lemma Set_add_absent x s : x ∉ s -> JS.Set_add x s = s ++ [x].
Proof.
  intros Hout. unfold JS.Set_add.
  apply Set_has_false in Hout. now rewrite Hout.
Qed.

Lemma elem_of_Set_add y x s : y ∈ JS.Set_add x s <-> y = x \/ y ∈ s.
Proof.
  destruct (decide (x ∈ s)) as [Hin|Hout].
  - rewrite Set_add_present by assumption. split; [tauto|].
    intros [->|H]; assumption.
  - rewrite Set_add_absent by assumption.
    rewrite elem_of_app, list_elem_of_singleton. tauto.
Qed.

Lemma Set_add_NoDup x s : NoDup s -> NoDup (JS.Set_add x s).
Proof.
  intros Hnd. destruct (decide (x ∈ s)) as [Hin|Hout].
  - now rewrite Set_add_present.
  - rewrite Set_add_absent by assumption.
    apply NoDup_app. split; [assumption|]. split.
    + intros y Hy Hyx. apply list_elem_of_singleton in Hyx. now subst.
    + apply NoDup_singleton.
Qed.

Lemma extends_refl s : extends s s.
Proof. exists []. split; [now rewrite app_nil_r|]. intros x Hx. inversion Hx. Qed.

Lemma extends_trans s1 s2 s3 : extends s1 s2 -> extends s2 s3 -> extends s1 s3.
Proof.
  intros (f1 & -> & H1) (f2 & -> & H2).
  exists (f1 ++ f2). split; [now rewrite app_assoc|].
  intros x Hx. apply elem_of_app in Hx as [Hx|Hx]; [now apply H1|].
  intros Hin. apply (H2 x Hx). apply elem_of_app. now left.
Qed.

Lemma extends_Set_add x s : extends s (JS.Set_add x s).
Proof.
  destruct (decide (x ∈ s)) as [Hin|Hout].
  - rewrite Set_add_present by assumption. apply extends_refl.
  - rewrite Set_add_absent by assumption. exists [x]. split; [reflexivity|].
    intros y Hy. apply list_elem_of_singleton in Hy. now subst.
Qed.

Lemma extends_elem s s' x : extends s s' -> x ∈ s -> x ∈ s'.
Proof. intros (f & -> & _) Hx. apply elem_of_app. now left. Qed.

Lemma elem_of_Set_from_acc array : forall acc x,
  x ∈ foldl (fun s y => JS.Set_add y s) acc array <-> x ∈ acc \/ x ∈ array.
Proof.
  induction array as [|a array IH]; intros acc x; simpl.
  - split; [tauto|]. intros [H|H]; [assumption|inversion H].
  - rewrite IH, elem_of_Set_add, elem_of_cons. tauto.
Qed.

Lemma elem_of_Set_from array x : x ∈ JS.Set_from array <-> x ∈ array.
Proof.
  unfold JS.Set_from. rewrite elem_of_Set_from_acc.
  split; [intros [H|H]; [inversion H|assumption]|tauto].
Qed.

(** [new Set(array)] of an array without duplicates keeps the array. *)
Lemma Set_from_acc_NoDup array : forall acc,
  NoDup (acc ++ array) ->
  foldl (fun s y => JS.Set_add y s) acc array = acc ++ array.
Proof.
  induction array as [|a array IH]; intros acc Hnd; simpl.
  - now rewrite app_nil_r.
  - assert (Ha : a ∉ acc).
    { apply NoDup_app in Hnd as (_ & Hd & _). intros Hin.
      apply (Hd a Hin). apply elem_of_cons. now left. }
    rewrite Set_add_absent by assumption.
    rewrite IH; rewrite <- app_assoc; simpl; [reflexivity|assumption].
Qed.

Lemma Set_from_NoDup array : NoDup array -> JS.Set_from array = array.
Proof. intros Hnd. unfold JS.Set_from. now rewrite Set_from_acc_NoDup. Qed.

End SetFacts.

(* ===================================================================== *)
(** ** The cache: what each operation reads and writes                   *)
(* ===================================================================== *)

Section CacheFrames.

Import Cache.

Lemma updateLatestTimestamp_seen s t c :
  seenVideoIds (updateLatestTimestamp s t c) = seenVideoIds c.
Proof.
  unfold updateLatestTimestamp.
  destruct (latestVideoTimestamps c !! s) as [cur|]; [|reflexivity].
  now destruct (cur <? t)%Z.
Qed.

Lemma applySourceTimestamps_seen l : forall c,
  seenVideoIds (applySourceTimestamps l c) = seenVideoIds c.
Proof.
  unfold applySourceTimestamps.
  induction l as [|kv l IH]; intros c; simpl; [reflexivity|].
  now rewrite IH, updateLatestTimestamp_seen.
Qed.

Lemma markAllSeen_latest vs : forall c,
  latestVideoTimestamps (markAllSeen vs c) = latestVideoTimestamps c.
Proof.
  unfold markAllSeen.
  induction vs as [|v vs IH]; intros c; simpl; [reflexivity|].
  now rewrite IH.
Qed.

Lemma markAllSeen_extends vs : forall c,
  extends (seenVideoIds c) (seenVideoIds (markAllSeen vs c)).
Proof.
  unfold markAllSeen.
  induction vs as [|v vs IH]; intros c; simpl; [apply extends_refl|].
  eapply extends_trans; [|apply IH]. simpl. apply extends_Set_add.
Qed.

Lemma elem_of_markAllSeen vs : forall c x,
  x ∈ seenVideoIds (markAllSeen vs c)
  <-> x ∈ seenVideoIds c \/ exists v, v ∈ vs /\ id v = x.
Proof.
  unfold markAllSeen.
  induction vs as [|v vs IH]; intros c x; simpl.
  - split; [tauto|]. intros [H|(v & Hv & _)]; [assumption|inversion Hv].
  - rewrite IH. simpl. rewrite elem_of_Set_add. split.
    + intros [[->|H]|(w & Hw & Hid)].
      * right. exists v. split; [apply elem_of_cons; now left|reflexivity].
      * now left.
      * right. exists w. split; [apply elem_of_cons; now right|assumption].
    + intros [H|(w & Hw & Hid)]; [tauto|].
      apply elem_of_cons in Hw as [->|Hw]; [left; left; now symmetry|].
      right. now exists w.
Qed.

(** Marking an identifier that is already seen changes nothing at all. *)
Lemma markAsSeen_seen x c : hasBeenSeen x c = true -> markAsSeen x c = c.
Proof.
  unfold hasBeenSeen, markAsSeen, set_seen. intros H.
  apply Set_has_true in H. rewrite Set_add_present by assumption.
  now destruct c.
Qed.

Lemma filterNewVideos_ext vs c c' :
  seenVideoIds c = seenVideoIds c' ->
  filterNewVideos vs c = filterNewVideos vs c'.
Proof. intros H. unfold filterNewVideos, hasBeenSeen. now rewrite H. Qed.

Lemma elem_of_filterNewVideos v vs c :
  v ∈ filterNewVideos vs c <-> v ∈ vs /\ id v ∉ seenVideoIds c.
Proof.
  unfold filterNewVideos, hasBeenSeen.
  rewrite (list_elem_of_In _ v), filter_In, negb_true_iff, Set_has_false.
  now rewrite <- list_elem_of_In.
Qed.

(** Nothing is filtered out of a list of unseen videos. *)
Lemma filterNewVideos_all vs c :
  (forall v, v ∈ vs -> id v ∉ seenVideoIds c) -> filterNewVideos vs c = vs.
Proof.
  unfold filterNewVideos, hasBeenSeen.
  induction vs as [|v vs IH]; intros H; simpl; [reflexivity|].
  assert (Hv : JS.Set_has (id v) (seenVideoIds c) = false).
  { apply Set_has_false, H, elem_of_cons. now left. }
  rewrite Hv. simpl. f_equal. apply IH.
  intros w Hw. apply H, elem_of_cons. now right.
Qed.

(** Everything is filtered out of a list of seen videos. *)
Lemma filterNewVideos_none vs c :
  (forall v, v ∈ vs -> id v ∈ seenVideoIds c) -> filterNewVideos vs c = [].
Proof.
  unfold filterNewVideos, hasBeenSeen.
  induction vs as [|v vs IH]; intros H; simpl; [reflexivity|].
  assert (Hv : JS.Set_has (id v) (seenVideoIds c) = true).
  { apply Set_has_true, H, elem_of_cons. now left. }
  rewrite Hv. simpl. apply IH.
  intros w Hw. apply H, elem_of_cons. now right.
Qed.

Lemma onePerSource_acc l : forall dev srcs v,
  v ∈ fst (foldl (fun '(devVideos, seenSources) video =>
                   let sourceKey := sourceKeyOf video in
                   if negb (JS.Set_has sourceKey seenSources)
                   then (devVideos ++ [video], JS.Set_add sourceKey seenSources)
                   else (devVideos, seenSources))
                (dev, srcs) l) ->
  v ∈ dev \/ v ∈ l.
Proof.
  induction l as [|w l IH]; intros dev srcs v; simpl; [tauto|].
  destruct (negb (JS.Set_has (sourceKeyOf w) srcs)); intros H;
    apply IH in H as [H|H].
  - apply elem_of_app in H as [H|H]; [now left|].
    apply list_elem_of_singleton in H. subst. right. apply elem_of_cons. now left.
  - right. apply elem_of_cons. now right.
  - now left.
  - right. apply elem_of_cons. now right.
Qed.

(** The sample of development mode is taken from the new videos. *)
Lemma onePerSource_sub l v : v ∈ fst (onePerSource l) -> v ∈ l.
Proof.
  unfold onePerSource. intros H. apply onePerSource_acc in H as [H|H];
    [inversion H|assumption].
Qed.

End CacheFrames.

(* ===================================================================== *)
(** ** Policies of [processVideos]                                       *)
(* ===================================================================== *)

Section Process.

Import Cache.

Lemma processVideos_bootstrapQuiet vs flag mode c :
  policyOf flag mode = BootstrapQuiet ->
  processVideos vs flag mode c
  = ([], markAllSeen vs (applySourceTimestamps (collectSourceTimestamps vs) c)).
Proof.
  unfold policyOf, processVideos. intros H.
  destruct (flag && String.eqb mode "production"); [reflexivity|].
  destruct (String.eqb mode "development"); discriminate.
Qed.

Lemma processVideos_sampled vs flag mode c :
  policyOf flag mode = Sampled ->
  let c1 := applySourceTimestamps (collectSourceTimestamps vs) c in
  processVideos vs flag mode c
  = (fst (onePerSource (filterNewVideos vs c1)),
     markAllSeen (filterNewVideos vs c1) c1).
Proof.
  unfold policyOf, processVideos. intros H.
  destruct (flag && String.eqb mode "production"); [discriminate|].
  destruct (String.eqb mode "development"); [reflexivity|discriminate].
Qed.

Lemma processVideos_full vs flag mode c :
  policyOf flag mode = Full ->
  let c1 := applySourceTimestamps (collectSourceTimestamps vs) c in
  processVideos vs flag mode c
  = (filterNewVideos vs c1, markAllSeen (filterNewVideos vs c1) c1).
Proof.
  unfold policyOf, processVideos. intros H.
  destruct (flag && String.eqb mode "production"); [discriminate|].
  destruct (String.eqb mode "development"); [discriminate|reflexivity].
Qed.

(** In every policy the delivery list is drawn from the unseen videos of
    the input. *)
Lemma processVideos_delivers_new vs flag mode c v :
  v ∈ fst (processVideos vs flag mode c) ->
  v ∈ vs /\ id v ∉ seenVideoIds c.
Proof.
  set (c1 := applySourceTimestamps (collectSourceTimestamps vs) c).
  assert (Hc1 : seenVideoIds c1 = seenVideoIds c)
    by apply applySourceTimestamps_seen.
  destruct (policyOf flag mode) eqn:Hp.
  - rewrite processVideos_bootstrapQuiet by assumption. simpl.
    intros H. inversion H.
  - rewrite processVideos_sampled by assumption. simpl. intros H.
    apply onePerSource_sub, elem_of_filterNewVideos in H.
    fold c1 in H. now rewrite Hc1 in H.
  - rewrite processVideos_full by assumption. simpl. intros H.
    apply elem_of_filterNewVideos in H. fold c1 in H. now rewrite Hc1 in H.
Qed.

(** In every policy the seen set keeps its entries in place and receives
    only identifiers that it did not hold. *)
Lemma processVideos_extends vs flag mode c :
  extends (seenVideoIds c) (seenVideoIds (snd (processVideos vs flag mode c))).
Proof.
  set (c1 := applySourceTimestamps (collectSourceTimestamps vs) c).
  assert (Hc1 : seenVideoIds c1 = seenVideoIds c)
    by apply applySourceTimestamps_seen.
  rewrite <- Hc1.
  destruct (policyOf flag mode) eqn:Hp.
  - rewrite processVideos_bootstrapQuiet by assumption.
    apply markAllSeen_extends.
  - rewrite processVideos_sampled by assumption. apply markAllSeen_extends.
  - rewrite processVideos_full by assumption. apply markAllSeen_extends.
Qed.

(** C1. Whatever the cache, the input and the policy, a video whose
    identifier is in the seen set before [processVideos] is not in the list
    that the call returns, and the call does not mark it again: the seen set
    afterwards is the one before, entries in place, followed by identifiers
    that were not seen before. *)
Theorem C1_seen_never_delivered_nor_remarked
    (c : VideoCache) (videos : list Video) (isInitialRun : bool) (mode : string) :
  let out := fst (processVideos videos isInitialRun mode c) in
  let c' := snd (processVideos videos isInitialRun mode c) in
  (forall v, id v ∈ seenVideoIds c -> v ∉ out)
  /\ exists fresh,
       seenVideoIds c' = seenVideoIds c ++ fresh
       /\ forall x, x ∈ seenVideoIds c -> x ∉ fresh.
Proof.
  simpl. split.
  - intros v Hseen Hout.
    apply processVideos_delivers_new in Hout as [_ Hnew]. contradiction.
  - destruct (processVideos_extends videos isInitialRun mode c)
      as (fresh & Heq & Hfresh).
    exists fresh. split; [assumption|].
    intros x Hx Hf. exact (Hfresh x Hf Hx).
Qed.

(** C3. On a cache whose seen set is empty, a call in the bootstrap-quiet
    policy (initial run, production mode) returns the empty list, and the
    seen set afterwards holds exactly the identifiers of the input. *)
Theorem C3_bootstrap_quiet
    (c : VideoCache) (videos : list Video) :
  Cache.isInitialRun c = true ->
  fst (processVideos videos true "production" c) = []
  /\ forall x,
       x ∈ seenVideoIds (snd (processVideos videos true "production" c))
       <-> exists v, v ∈ videos /\ id v = x.
Proof.
  intros Hboot. rewrite processVideos_bootstrapQuiet by reflexivity. simpl.
  split; [reflexivity|]. intros x.
  rewrite elem_of_markAllSeen, applySourceTimestamps_seen.
  unfold Cache.isInitialRun in Hboot. apply Nat.eqb_eq in Hboot.
  destruct (seenVideoIds c); [|discriminate].
  split; [intros [H|H]; [inversion H|assumption]|tauto].
Qed.

Lemma C3_bootstrap_quiet_witness :
  fst (processVideos [va; vb; vc] true "production" (new_VideoCache None 0)) = []
  /\ forall x,
       x ∈ seenVideoIds
             (snd (processVideos [va; vb; vc] true "production"
                     (new_VideoCache None 0)))
       <-> exists v, v ∈ [va; vb; vc] /\ id v = x.
Proof. apply (C3_bootstrap_quiet (new_VideoCache None 0) [va; vb; vc]). reflexivity. Defined.

(** C4. In the full policy, on videos none of which is seen, the call
    returns the input as it is, marks every video seen, and a second call
    on the same videos returns the empty list, whatever its policy. *)
Theorem C4_full_policy_delivers_once
    (c : VideoCache) (videos : list Video) (isInitialRun : bool) (mode : string) :
  policyOf isInitialRun mode = Full ->
  (forall v, v ∈ videos -> id v ∉ seenVideoIds c) ->
  let c' := snd (processVideos videos isInitialRun mode c) in
  fst (processVideos videos isInitialRun mode c) = videos
  /\ (forall v, v ∈ videos -> id v ∈ seenVideoIds c')
  /\ forall isInitialRun' mode',
       fst (processVideos videos isInitialRun' mode' c') = [].
Proof.
  intros Hfull Hnew. simpl.
  set (c1 := applySourceTimestamps (collectSourceTimestamps videos) c).
  assert (Hc1 : seenVideoIds c1 = seenVideoIds c)
    by apply applySourceTimestamps_seen.
  rewrite processVideos_full by assumption. simpl. fold c1.
  assert (Hall : filterNewVideos videos c1 = videos).
  { apply filterNewVideos_all. intros v Hv. rewrite Hc1. now apply Hnew. }
  rewrite Hall.
  assert (Hmarked : forall v, v ∈ videos -> id v ∈ seenVideoIds (markAllSeen videos c1)).
  { intros v Hv. apply elem_of_markAllSeen. right. now exists v. }
  split; [reflexivity|]. split; [assumption|].
  intros flag' mode'.
  set (c2 := applySourceTimestamps (collectSourceTimestamps videos)
               (markAllSeen videos c1)).
  assert (Hc2 : seenVideoIds c2 = seenVideoIds (markAllSeen videos c1))
    by apply applySourceTimestamps_seen.
  assert (Hnone : filterNewVideos videos c2 = []).
  { apply filterNewVideos_none. intros v Hv. rewrite Hc2. now apply Hmarked. }
  destruct (policyOf flag' mode') eqn:Hp.
  - now rewrite processVideos_bootstrapQuiet.
  - rewrite processVideos_sampled by assumption. simpl. fold c2.
    now rewrite Hnone.
  - rewrite processVideos_full by assumption. simpl. now fold c2.
Qed.

Example sampled_one_per_source :
  let r := processVideos [va; vb; vc] false "development" (new_VideoCache None 0) in
  fst r = [va; vc] /\ seenVideoIds (snd r) = ["a"; "b"; "c"].
Proof. split; reflexivity. Qed.

End Process.

Lemma C4_full_policy_delivers_once_witness :
  let c := Cache.new_VideoCache None 0 in
  let c' := snd (Cache.processVideos [va; vb; vc] false "production" c) in
  fst (Cache.processVideos [va; vb; vc] false "production" c) = [va; vb; vc]
  /\ (forall v, v ∈ [va; vb; vc] -> Cache.id v ∈ Cache.seenVideoIds c')
  /\ forall isInitialRun' mode',
       fst (Cache.processVideos [va; vb; vc] isInitialRun' mode' c') = [].
Proof.
  apply (C4_full_policy_delivers_once (Cache.new_VideoCache None 0)
           [va; vb; vc] false "production").
  - reflexivity.
  - intros v _ H. simpl in H. inversion H.
Defined.

(* ===================================================================== *)
(** ** The latest timestamp of a source never goes back                  *)
(* ===================================================================== *)

Section Monotone.

Import Cache.

Lemma stored_le_refl o : stored_le o o.
Proof. destruct o as [t|]; simpl; [|exact I]. exists t. split; [reflexivity|lia]. Qed.

Lemma stored_le_trans o1 o2 o3 :
  stored_le o1 o2 -> stored_le o2 o3 -> stored_le o1 o3.
Proof.
  destruct o1 as [t1|]; simpl; [|tauto].
  intros (t2 & -> & H12). simpl. intros (t3 & -> & H23).
  exists t3. split; [reflexivity|lia].
Qed.

Lemma updateLatestTimestamp_mono s t c k :
  stored_le (latestVideoTimestamps c !! k)
            (latestVideoTimestamps (updateLatestTimestamp s t c) !! k).
Proof.
  unfold updateLatestTimestamp.
  destruct (latestVideoTimestamps c !! s) as [cur|] eqn:Hs.
  - destruct (Z.ltb_spec cur t) as [Hlt|Hge]; [|apply stored_le_refl].
    simpl. destruct (decide (s = k)) as [->|Hne].
    + rewrite Hs, lookup_insert_eq. simpl. exists t. split; [reflexivity|lia].
    + rewrite lookup_insert_ne by assumption. apply stored_le_refl.
  - simpl. destruct (decide (s = k)) as [->|Hne].
    + now rewrite Hs.
    + rewrite lookup_insert_ne by assumption. apply stored_le_refl.
Qed.

(** A stored timestamp is replaced only by the newer one it is given. *)
Lemma updateLatestTimestamp_strict s t c old new :
  latestVideoTimestamps c !! s = Some old ->
  latestVideoTimestamps (updateLatestTimestamp s t c) !! s = Some new ->
  new <> old -> (old < new)%Z /\ new = t.
Proof.
  unfold updateLatestTimestamp. intros Hold. rewrite Hold.
  destruct (Z.ltb_spec old t) as [Hlt|Hge]; simpl.
  - rewrite lookup_insert_eq. intros [= <-] _. split; [assumption|reflexivity].
  - rewrite Hold. intros [= <-] Hne. contradiction.
Qed.

Lemma applySourceTimestamps_mono l : forall c k,
  stored_le (latestVideoTimestamps c !! k)
            (latestVideoTimestamps (applySourceTimestamps l c) !! k).
Proof.
  unfold applySourceTimestamps.
  induction l as [|kv l IH]; intros c k; simpl; [apply stored_le_refl|].
  eapply stored_le_trans; [apply updateLatestTimestamp_mono|apply IH].
Qed.

Lemma processVideos_latest vs flag mode c :
  latestVideoTimestamps (snd (processVideos vs flag mode c))
  = latestVideoTimestamps (applySourceTimestamps (collectSourceTimestamps vs) c).
Proof.
  unfold processVideos.
  destruct (flag && String.eqb mode "production");
    [|destruct (String.eqb mode "development")];
    simpl; apply markAllSeen_latest.
Qed.

Lemma processVideos_mono vs flag mode c k :
  stored_le (latestVideoTimestamps c !! k)
            (latestVideoTimestamps (snd (processVideos vs flag mode c)) !! k).
Proof. rewrite processVideos_latest. apply applySourceTimestamps_mono. Qed.

Lemma markMultipleAsSeen_latest ids : forall c,
  latestVideoTimestamps (markMultipleAsSeen ids c) = latestVideoTimestamps c.
Proof.
  unfold markMultipleAsSeen.
  induction ids as [|x ids IH]; intros c; simpl; [reflexivity|].
  now rewrite IH.
Qed.

Lemma cleanup_latest maxEntries c :
  latestVideoTimestamps (cleanup maxEntries c) = latestVideoTimestamps c.
Proof.
  unfold cleanup.
  now destruct (Z.of_nat (length (seenVideoIds c)) <=? maxEntries)%Z.
Qed.

Lemma save_latest force now c fs :
  latestVideoTimestamps (fst (save force now c fs)) = latestVideoTimestamps c.
Proof.
  unfold save. destruct (statePath c); [|reflexivity].
  destruct (negb force && (now - lastSaveTime c <? 30000)%Z); [reflexivity|].
  now destruct (writeFile _ _ fs).
Qed.

Lemma perform_mono op st k :
  stored_le (latestVideoTimestamps (fst st) !! k)
            (latestVideoTimestamps (fst (perform st op)) !! k).
Proof.
  destruct st as [c fs]. destruct op; simpl.
  - apply stored_le_refl.
  - rewrite markMultipleAsSeen_latest. apply stored_le_refl.
  - apply updateLatestTimestamp_mono.
  - apply processVideos_mono.
  - rewrite cleanup_latest. apply stored_le_refl.
  - rewrite save_latest. apply stored_le_refl.
  - unfold shutdown. rewrite save_latest. apply stored_le_refl.
Qed.

Lemma run_mono ops : forall st k,
  stored_le (latestVideoTimestamps (fst st) !! k)
            (latestVideoTimestamps (fst (foldl perform st ops)) !! k).
Proof.
  induction ops as [|op ops IH]; intros st k; simpl; [apply stored_le_refl|].
  eapply stored_le_trans; [apply perform_mono|apply IH].
Qed.

(** C9. The timestamp stored for a source never goes back: between any two
    moments of the life of a cache, a timestamp that was stored is still
    stored and is not older; [updateLatestTimestamp] replaces a stored
    timestamp only by a strictly newer one, and so does [processVideos]. *)
Theorem C9_latest_timestamp_monotone :
  (forall file start fs ops ops' k,
      stored_le
        (latestVideoTimestamps (fst (lifetime file start fs ops)) !! k)
        (latestVideoTimestamps (fst (lifetime file start fs (ops ++ ops'))) !! k))
  /\ (forall s t c old new,
        latestVideoTimestamps c !! s = Some old ->
        latestVideoTimestamps (updateLatestTimestamp s t c) !! s = Some new ->
        new = old \/ ((old < new)%Z /\ new = t))
  /\ (forall videos isInitialRun mode c k old,
        latestVideoTimestamps c !! k = Some old ->
        exists new,
          latestVideoTimestamps
            (snd (processVideos videos isInitialRun mode c)) !! k = Some new
          /\ (new = old \/ (old < new)%Z)).
Proof.
  split; [|split].
  - intros file start fs ops ops' k. unfold lifetime.
    rewrite foldl_app. apply run_mono.
  - intros s t c old new Hold Hnew.
    destruct (decide (new = old)) as [->|Hne]; [now left|right].
    eapply updateLatestTimestamp_strict; eassumption.
  - intros videos flag mode c k old Hold.
    pose proof (processVideos_mono videos flag mode c k) as H.
    rewrite Hold in H. destruct H as (new & Hnew & Hle).
    exists new. split; [assumption|lia].
Qed.

Example older_video_keeps_latest :
  let c := snd (processVideos [va; vb] false "production" (new_VideoCache None 0)) in
  latestVideoTimestamps c !! "channel:S1" = Some 300%Z
  /\ latestVideoTimestamps (snd (processVideos [vb'] false "production" c))
       !! "channel:S1" = Some 300%Z.
Proof. split; reflexivity. Qed.

End Monotone.

(* ===================================================================== *)
(** ** [cleanup]                                                         *)
(* ===================================================================== *)

Section Cleanup.

Import Cache.

Lemma elem_of_slice_from (start : Z) (array : list string) x :
  x ∈ JS.slice_from start array -> x ∈ array.
Proof. unfold JS.slice_from. apply subseteq_drop. Qed.

Lemma elem_of_sort array x : x ∈ JS.sort array <-> x ∈ array.
Proof. unfold JS.sort. now rewrite merge_sort_Permutation. Qed.

Lemma cleanup_subset maxEntries c x :
  x ∈ seenVideoIds (cleanup maxEntries c) -> x ∈ seenVideoIds c.
Proof.
  unfold cleanup.
  destruct (Z.of_nat (length (seenVideoIds c)) <=? maxEntries)%Z; [tauto|].
  simpl. intros H.
  apply elem_of_Set_from, elem_of_slice_from in H.
  now apply (proj1 (elem_of_sort _ _)) in H.
Qed.

(** C10. [cleanup] never touches [latestVideoTimestamps]; when the seen set
    holds at most [maxEntries] identifiers it returns the cache as it is;
    in every case what it leaves in the seen set was there before. *)
Theorem C10_cleanup_frame (c : VideoCache) (maxEntries : Z) :
  latestVideoTimestamps (cleanup maxEntries c) = latestVideoTimestamps c
  /\ ((Z.of_nat (length (seenVideoIds c)) <= maxEntries)%Z ->
      cleanup maxEntries c = c)
  /\ (forall x, x ∈ seenVideoIds (cleanup maxEntries c) -> x ∈ seenVideoIds c)
  /\ ((maxEntries < Z.of_nat (length (seenVideoIds c)))%Z ->
      seenVideoIds (cleanup maxEntries c)
      = JS.Set_from (JS.slice_from (- maxEntries) (JS.sort (seenVideoIds c)))).
Proof.
  split; [apply cleanup_latest|]. split; [|split].
  - intros Hle. unfold cleanup.
    apply Z.leb_le in Hle. now rewrite Hle.
  - intros x. apply cleanup_subset.
  - intros Hgt. unfold cleanup.
    destruct (Z.leb_spec (Z.of_nat (length (seenVideoIds c))) maxEntries);
      [lia|reflexivity].
Qed.

Example cleanup_keeps_largest :
  seenVideoIds (cleanup 3 (mkCache None ["a"; "c"; "b"; "d"] ∅ 0))
  = ["b"; "c"; "d"].
Proof. vm_compute. reflexivity. Qed.

End Cleanup.

(* ===================================================================== *)
(** ** The state file: [save] then [initialize]                          *)
(* ===================================================================== *)

Section Persistence.

Import Cache.

Lemma Map_from_lookup (l : list (string * Z)) : forall (acc : gmap string Z) k,
  NoDup (l.*1) ->
  foldl (fun m kv => <[kv.1 := kv.2]> m) acc l !! k
  = match (list_to_map l : gmap string Z) !! k with
    | Some v => Some v
    | None => acc !! k
    end.
Proof.
  induction l as [|[k0 v0] l IH]; intros acc k Hnd; simpl.
  - now rewrite lookup_empty.
  - apply NoDup_cons in Hnd as [Hk0 Hnd].
    rewrite IH by assumption.
    destruct (decide (k0 = k)) as [->|Hne].
    + rewrite !lookup_insert_eq.
      now rewrite (not_elem_of_list_to_map_1 (M := gmap string) l k Hk0).
    + now rewrite !lookup_insert_ne by assumption.
Qed.

(** Writing a map as an object and reading the object back as a map gives
    the map again. *)
Lemma Map_from_fromEntries (m : gmap string Z) :
  Map_from (Object_fromEntries m) = m.
Proof.
  apply map_eq. intros k. unfold Map_from, Object_fromEntries.
  rewrite Map_from_lookup by apply NoDup_fst_map_to_list.
  rewrite list_to_map_to_list, lookup_empty.
  now destruct (m !! k).
Qed.

(** [save] writes the state file exactly when a path is configured, the
    save is forced or 30 seconds have passed, and the write succeeds. *)
Lemma save_written force now c fs path :
  statePath c = Some path ->
  writable fs = true ->
  force = true \/ (30000 <= now - lastSaveTime c)%Z ->
  save force now c fs
  = (set_lastSaveTime now c,
     mkFS (<[path := Document (snapshot now c)]> (files fs)) (writable fs)).
Proof.
  intros Hpath Hw Hdue. unfold save, writeFile. rewrite Hpath, Hw.
  replace (negb force && (now - lastSaveTime c <? 30000)%Z) with false;
    [reflexivity|].
  destruct Hdue as [->|Hdue]; [reflexivity|].
  destruct (Z.ltb_spec (now - lastSaveTime c) 30000); [lia|].
  now rewrite andb_false_r.
Qed.

Lemma save_throttled now c fs :
  (now - lastSaveTime c < 30000)%Z -> save false now c fs = (c, fs).
Proof.
  intros Hlt. unfold save. destruct (statePath c); [|reflexivity].
  apply Z.ltb_lt in Hlt. now rewrite Hlt.
Qed.

(** A save that is not forced, made less than 30 seconds after the last
    one, writes nothing: the load that follows finds no file. *)
Lemma C8_round_trip_counterexample :
  ~ round_trips false 2000 3000 sample_cache empty_disk.
Proof.
  unfold round_trips. intros [Hseen _].
  specialize (Hseen "x"). vm_compute in Hseen.
  destruct Hseen as [_ Hseen].
  assert (Hx : "x" ∈ ["x"; "y"]) by (apply elem_of_cons; now left).
  specialize (Hseen Hx). inversion Hseen.
Qed.

(** C8 (amended). When a state file is configured and [save] does write
    (forced, or at least 30 seconds after the last save, and the write
    succeeds), a load from that file gives a cache whose seen set has the
    same elements and whose timestamps are the same map. *)
Theorem C8_round_trip_when_written
    (c : VideoCache) (fs : FS) (force : bool) (now start : Z) (path : string) :
  statePath c = Some path ->
  writable fs = true ->
  force = true \/ (30000 <= now - lastSaveTime c)%Z ->
  round_trips force now start c fs.
Proof.
  intros Hpath Hw Hdue. unfold round_trips, load.
  rewrite (save_written force now c fs path) by assumption. simpl.
  unfold initialize.
  assert (Hp : statePath (new_VideoCache (cacheFile c) start) = Some path)
    by exact Hpath.
  rewrite Hp. simpl. rewrite lookup_insert_eq. simpl.
  split.
  - intros x. apply elem_of_Set_from.
  - apply Map_from_fromEntries.
Qed.

Lemma C8_round_trip_when_written_witness :
  round_trips true 2000 3000 sample_cache empty_disk.
Proof.
  apply (C8_round_trip_when_written sample_cache empty_disk true 2000 3000
           "cache.json").
  - reflexivity.
  - reflexivity.
  - left. reflexivity.
Defined.

End Persistence.

(* ===================================================================== *)
(** ** The polling pass and the save that ends it                        *)
(* ===================================================================== *)

Section Pass.

Import Cache.

Lemma updateLatestTimestamp_file s t c :
  cacheFile (updateLatestTimestamp s t c) = cacheFile c
  /\ lastSaveTime (updateLatestTimestamp s t c) = lastSaveTime c.
Proof.
  unfold updateLatestTimestamp.
  destruct (latestVideoTimestamps c !! s) as [cur|]; [|now split].
  destruct (cur <? t)%Z; now split.
Qed.

Lemma applySourceTimestamps_file l : forall c,
  cacheFile (applySourceTimestamps l c) = cacheFile c
  /\ lastSaveTime (applySourceTimestamps l c) = lastSaveTime c.
Proof.
  unfold applySourceTimestamps.
  induction l as [|kv l IH]; intros c; simpl; [now split|].
  destruct (IH (updateLatestTimestamp kv.1 kv.2 c)) as [-> ->].
  apply updateLatestTimestamp_file.
Qed.

Lemma markAllSeen_file vs : forall c,
  cacheFile (markAllSeen vs c) = cacheFile c
  /\ lastSaveTime (markAllSeen vs c) = lastSaveTime c.
Proof.
  unfold markAllSeen.
  induction vs as [|v vs IH]; intros c; simpl; [now split|].
  destruct (IH (markAsSeen (id v) c)) as [-> ->]. now split.
Qed.

(** [processVideos] of the cache leaves the path and the time of the last
    save as they are. *)
Lemma processVideos_file vs flag mode c :
  cacheFile (snd (processVideos vs flag mode c)) = cacheFile c
  /\ lastSaveTime (snd (processVideos vs flag mode c)) = lastSaveTime c.
Proof.
  unfold processVideos.
  destruct (flag && String.eqb mode "production");
    [|destruct (String.eqb mode "development")]; simpl;
    match goal with
    | |- context [markAllSeen ?l ?c1] =>
        destruct (markAllSeen_file l c1) as [-> ->]
    end; apply applySourceTimestamps_file.
Qed.

(** A pass with something to deliver hands the delivery list to the
    dispatcher and then calls [save] without forcing it. *)
Lemma pass_with_delivery config dw now videos c fs :
  deliveryList config videos c <> [] ->
  let p := Index.processVideos config dw now videos c fs in
  let saved := save false now (processedCache config videos c) fs in
  Index.cache p = fst saved /\ Index.fs p = snd saved
  /\ (Index.testMode config = false -> forall post, dw = Some post ->
      Index.dispatched p = Some (deliveryList config videos c)).
Proof.
  unfold deliveryList, processedCache, Index.processVideos. intros Hne.
  destruct videos as [|v0 videos].
  { exfalso. apply Hne. unfold processVideos. simpl.
    destruct (isInitialRun c && _); [reflexivity|].
    now destruct (String.eqb _ _). }
  destruct (processVideos (v0 :: videos) (isInitialRun c) (Index.modeOf config) c)
    as [newVideos c1] eqn:Hproc.
  simpl in Hne |- *.
  destruct newVideos as [|n0 newVideos]; [contradiction|].
  destruct (save false now c1 fs) as [c2 fs2] eqn:Hsave.
  destruct (Index.testMode config); destruct dw; simpl;
    repeat split; try discriminate; intros; congruence.
Qed.

(** A pass that delivers one video five seconds after the cache was built
    leaves the disk without a state file. *)
Lemma C2_forced_save_counterexample :
  ~ saved_after_delivery production (Some allPosted) 6000 [va]
      running_cache empty_disk.
Proof.
  unfold saved_after_delivery. intros H.
  specialize (H "cache.json" [va] eq_refl eq_refl).
  destruct H as (d & Hd & _); [discriminate|].
  vm_compute in Hd. discriminate.
Qed.

(** C2 (amended). A pass whose delivery list is not empty ends, after the
    dispatcher, with a save that is not forced: with a state file configured
    and writable, the state is written when at least 30 seconds have passed
    since the last save, and the disk and the time of the last save are not
    touched when less than 30 seconds have passed. *)
Theorem C2_throttled_save_after_delivery
    (config : Index.Config)
    (dw : option (list Video -> list (string * bool)))
    (now : Z) (videos : list Video) (c : VideoCache) (fs : FS)
    (path : string) :
  statePath c = Some path ->
  writable fs = true ->
  deliveryList config videos c <> [] ->
  let p := Index.processVideos config dw now videos c fs in
  let c1 := processedCache config videos c in
  ((30000 <= now - lastSaveTime c)%Z ->
     files (Index.fs p) !! path = Some (Document (snapshot now c1))
     /\ Index.cache p = set_lastSaveTime now c1)
  /\ ((now - lastSaveTime c < 30000)%Z ->
     Index.fs p = fs /\ Index.cache p = c1).
Proof.
  intros Hpath Hw Hne. simpl.
  destruct (pass_with_delivery config dw now videos c fs Hne) as (Hc & Hfs & _).
  destruct (processVideos_file videos (isInitialRun c) (Index.modeOf config) c)
    as [Hfile Hlast].
  fold (processedCache config videos c) in Hfile, Hlast.
  assert (Hpath1 : statePath (processedCache config videos c) = Some path).
  { unfold statePath in *. now rewrite Hfile. }
  rewrite Hc, Hfs. split.
  - intros Hdue.
    rewrite (save_written false now _ fs path); try assumption.
    + simpl. now rewrite lookup_insert_eq.
    + right. now rewrite Hlast.
  - intros Hearly. rewrite save_throttled; [now split|].
    now rewrite Hlast.
Qed.

Lemma C2_throttled_save_after_delivery_witness :
  let p := Index.processVideos production (Some allPosted) 6000 [va]
             running_cache empty_disk in
  let c1 := processedCache production [va] running_cache in
  ((30000 <= 6000 - lastSaveTime running_cache)%Z ->
     files (Index.fs p) !! "cache.json" = Some (Document (snapshot 6000 c1))
     /\ Index.cache p = set_lastSaveTime 6000 c1)
  /\ ((6000 - lastSaveTime running_cache < 30000)%Z ->
     Index.fs p = empty_disk /\ Index.cache p = c1).
Proof.
  apply (C2_throttled_save_after_delivery production (Some allPosted) 6000
           [va] running_cache empty_disk "cache.json").
  - reflexivity.
  - reflexivity.
  - vm_compute. discriminate.
Defined.

End Pass.

(* ===================================================================== *)
(** ** The rate limiter                                                  *)
(* ===================================================================== *)

Section RateLimiter.

Import Discord.

Lemma StronglySorted_filter (f : Z -> bool) l :
  StronglySorted Z.le l -> StronglySorted Z.le (List.filter f l).
Proof.
  induction 1 as [|x l Hs IH Hx]; simpl; [constructor|].
  destruct (f x); [|assumption].
  constructor; [assumption|].
  rewrite Forall_forall in Hx |- *. intros y Hy.
  apply Hx. rewrite list_elem_of_In in Hy |- *.
  now apply filter_In in Hy.
Qed.

Lemma Forall_filter_keep (P : Z -> Prop) (f : Z -> bool) l :
  Forall P l -> Forall P (List.filter f l).
Proof.
  rewrite !Forall_forall. intros H y Hy. apply H.
  rewrite list_elem_of_In in Hy |- *. now apply filter_In in Hy.
Qed.

Lemma reachable_chronological t w :
  reachable t w -> chronological t (requestTimestamps w).
Proof.
  induction 1 as [url t|t t' w _ [Hs Hb] Hle|t w _ [Hs Hb]|t w _ [Hs Hb]];
    unfold _canMakeRequest; simpl.
  - split; constructor.
  - split; [assumption|].
    eapply Forall_impl; [exact Hb|]. simpl. intros x Hx. lia.
  - split; [now apply StronglySorted_filter|now apply Forall_filter_keep].
  - split.
    + apply StronglySorted_app_2; [|assumption|repeat constructor].
      intros x1 x2 H1 H2. apply list_elem_of_singleton in H2. subst.
      rewrite Forall_forall in Hb. now apply Hb.
    + apply Forall_app. split; [assumption|].
      constructor; [lia|constructor].
Qed.

Lemma foldl_min_head t rest :
  Forall (Z.le t) rest -> foldl Z.min t rest = t.
Proof.
  induction 1 as [|x rest Hx _ IH]; simpl; [reflexivity|].
  now rewrite Z.min_l.
Qed.

(** In a chronological window the first timestamp is the oldest one. *)
Lemma oldest_head t rest :
  StronglySorted Z.le (t :: rest) -> oldest (t :: rest) = Some t.
Proof.
  intros Hs. apply StronglySorted_inv in Hs as [_ Hall].
  simpl. now rewrite foldl_min_head.
Qed.

Lemma elem_of_inWindow now window x :
  x ∈ inWindow now window <-> x ∈ window /\ (now - x < 2000)%Z.
Proof.
  unfold inWindow, RATE_LIMIT_WINDOW_MS.
  rewrite (list_elem_of_In _ x), filter_In, Z.ltb_lt.
  now rewrite <- list_elem_of_In.
Qed.

(** The admission step on a chronological window, the clock being read
    first at [now1] and then at [now2]. *)
Lemma admission_chronological now1 now2 w :
  StronglySorted Z.le (requestTimestamps w) ->
  let kept := inWindow now1 (requestTimestamps w) in
  requestTimestamps (snd (admission now1 now2 w)) = kept
  /\ (length kept < 5 -> fst (admission now1 now2 w) = 0%Z)
  /\ (5 <= length kept ->
      exists o, oldest kept = Some o /\ o ∈ kept
                /\ fst (admission now1 now2 w)
                   = if (2000 <=? now2 - o)%Z then 0%Z
                     else (2000 - (now2 - o))%Z).
Proof.
  intros Hs. simpl. unfold admission, _canMakeRequest.
  fold (inWindow now1 (requestTimestamps w)).
  assert (Hk : StronglySorted Z.le (inWindow now1 (requestTimestamps w)))
    by now apply StronglySorted_filter.
  unfold RATE_LIMIT_REQUESTS.
  destruct (Nat.ltb_spec (length (inWindow now1 (requestTimestamps w))) 5)
    as [Hlt|Hge]; simpl.
  - split; [reflexivity|]. split; [reflexivity|lia].
  - split; [reflexivity|]. split; [lia|]. intros _.
    unfold _calculateDelay. simpl.
    destruct (inWindow now1 (requestTimestamps w)) as [|o rest] eqn:Hw;
      [simpl in Hge; lia|].
    exists o. split; [now apply oldest_head|].
    split; [apply elem_of_cons; now left|reflexivity].
Qed.

(** C5. The admission step drops the timestamps that are 2000 ms old or
    older; with fewer than 5 left the wait is zero, and otherwise it is
    2000 - (now - oldest), where oldest is the oldest timestamp left. *)
Theorem C5_admission_wait (t : Z) (w : DiscordWebhook) (now : Z) :
  reachable t w ->
  let kept := requestTimestamps (snd (admission now now w)) in
  (forall x, x ∈ kept <-> x ∈ requestTimestamps w /\ (now - x < 2000)%Z)
  /\ (length kept < 5 -> fst (admission now now w) = 0%Z)
  /\ (5 <= length kept ->
      exists o, oldest kept = Some o
                /\ fst (admission now now w) = (2000 - (now - o))%Z).
Proof.
  intros Hr. simpl.
  apply reachable_chronological in Hr as [Hs _].
  destruct (admission_chronological now now w Hs) as (Hkept & Hfew & Hfull).
  rewrite Hkept. split; [intros x; apply elem_of_inWindow|].
  split; [assumption|]. intros Hge.
  destruct (Hfull Hge) as (o & Ho & Hin & Hwait).
  exists o. split; [assumption|]. rewrite Hwait.
  apply elem_of_inWindow in Hin as [_ Hlt].
  destruct (Z.leb_spec 2000 (now - o)); [lia|reflexivity].
Qed.

Lemma busy_endpoint_reachable : reachable 400 busy_endpoint.
Proof.
  unfold busy_endpoint. simpl.
  apply reach_record. apply (reach_tick 300); [|lia].
  apply reach_record. apply (reach_tick 200); [|lia].
  apply reach_record. apply (reach_tick 100); [|lia].
  apply reach_record. apply (reach_tick 0); [|lia].
  apply reach_record. apply reach_new.
Qed.

Lemma C5_admission_wait_witness :
  let kept := requestTimestamps (snd (admission 500 500 busy_endpoint)) in
  (forall x, x ∈ kept <-> x ∈ requestTimestamps busy_endpoint /\ (500 - x < 2000)%Z)
  /\ (length kept < 5 -> fst (admission 500 500 busy_endpoint) = 0%Z)
  /\ (5 <= length kept ->
      exists o, oldest kept = Some o
                /\ fst (admission 500 500 busy_endpoint) = (2000 - (500 - o))%Z).
Proof. apply (C5_admission_wait 400 busy_endpoint 500). apply busy_endpoint_reachable. Defined.

Example sixth_request_waits : fst (admission 500 500 busy_endpoint) = 1500%Z.
Proof. reflexivity. Qed.

End RateLimiter.

(* ===================================================================== *)
(** ** One send and its retries                                          *)
(* ===================================================================== *)

Section Retries.

Import Discord.

Lemma catch_unfold net k error b (e : retryable error k = b) e0 :
  _sendWebhook_unfold_clause_1_clause_3 net k error (exist _ b e) e0
  = if b then
      let r := _sendWebhook net (S k) in
      (Fetch k :: Sleep (backoff k) :: fst r, snd r)
    else ([Fetch k], inl error).
Proof. now destruct b. Qed.

Lemma try_unfold net k x (e : tryBlock (net k) k = x) :
  _sendWebhook_unfold_clause_1 net k (exist _ x e)
  = match x with
    | Return v => ([Fetch k], inr v)
    | RetryRateLimited delay =>
        let r := _sendWebhook net (S k) in
        (Fetch k :: Sleep delay :: fst r, snd r)
    | Throw error =>
        if retryable error k then
          let r := _sendWebhook net (S k) in
          (Fetch k :: Sleep (backoff k) :: fst r, snd r)
        else ([Fetch k], inl error)
    end.
Proof.
  destruct x; simpl; try reflexivity.
  unfold inspect. apply catch_unfold.
Qed.

(** The body of [_sendWebhook], as the source has it. *)
Lemma sendWebhook_unfold net k :
  _sendWebhook net k =
  match tryBlock (net k) k with
  | Return v => ([Fetch k], inr v)
  | RetryRateLimited delay =>
      let r := _sendWebhook net (S k) in
      (Fetch k :: Sleep delay :: fst r, snd r)
  | Throw error =>
      if retryable error k then
        let r := _sendWebhook net (S k) in
        (Fetch k :: Sleep (backoff k) :: fst r, snd r)
      else ([Fetch k], inl error)
  end.
Proof.
  rewrite _sendWebhook_equation_1. unfold inspect. apply try_unfold.
Qed.

Lemma status_429_not_ok r : status r = 429%Z -> ok r = false.
Proof. unfold ok. intros ->. reflexivity. Qed.

Lemma rateLimitDelay_cases r k :
  status r = 429%Z ->
  rateLimitDelay r k
  = match status r, retryAfter r with
    | 429%Z, Some (String a rest) => JSNum_mul (parseInt (String a rest)) 1000
    | _, _ => Num (1000 * 2 ^ Z.of_nat k)
    end.
Proof.
  intros ->. unfold rateLimitDelay, truthy, backoff, baseDelay.
  destruct (retryAfter r) as [[|a rest]|]; reflexivity.
Qed.

Lemma not_429_cases r k :
  status r <> 429%Z ->
  match status r, retryAfter r with
  | 429%Z, Some (String a rest) => JSNum_mul (parseInt (String a rest)) 1000
  | _, _ => Num (1000 * 2 ^ Z.of_nat k)
  end = Num (1000 * 2 ^ Z.of_nat k).
Proof.
  intros Hne. destruct (status r) as [|p|p]; try reflexivity.
  destruct (decide (p = 429%positive)) as [->|Hp]; [contradiction|].
  do 9 (destruct p as [p|p|]; try reflexivity); contradiction.
Qed.

(** The last invocation: no retry is left. *)
Lemma sendWebhook_last net :
  fst (_sendWebhook net 3) = [Fetch 3] /\ settled (net 3) 3 (snd (_sendWebhook net 3)).
Proof.
  rewrite sendWebhook_unfold. unfold tryBlock, settled, failureOf, retryable.
  destruct (net 3) as [e|r]; simpl.
  - split; [reflexivity|]. split; [reflexivity|now left].
  - rewrite andb_false_r. destruct (ok r); simpl.
    + split; [reflexivity|]. eexists. reflexivity.
    + split; [reflexivity|]. split; [reflexivity|now left].
Qed.

(** A send that starts with retry count [k] and has [m] retries left. *)
Lemma sendWebhook_from net m : forall k,
  k + m = 3 ->
  let trace := fst (_sendWebhook net k) in
  let n := length (sleeps trace) in
  n <= m
  /\ fetches trace = seq k (S n)
  /\ (forall i d, sleeps trace !! i = Some d -> retried (net (k + i)) (k + i) d)
  /\ settled (net (k + n)) (k + n) (snd (_sendWebhook net k)).
Proof.
  induction m as [|m IH]; intros k Hk; simpl.
  - assert (k = 3) by lia. subst k.
    destruct (sendWebhook_last net) as [Htr Hres]. rewrite Htr. simpl.
    split; [lia|]. split; [reflexivity|]. split; [intros i d H; inversion H|].
    exact Hres.
  - assert (Hlt : Nat.ltb k maxRetries = true)
      by (apply Nat.ltb_lt; unfold maxRetries; lia).
    specialize (IH (S k) ltac:(lia)). simpl in IH.
    destruct IH as (Hn & Hf & Hs & Hres).
    rewrite sendWebhook_unfold.
    assert (Hstep : forall d0,
      retried (net k) k d0 ->
      let trace := Fetch k :: Sleep d0 :: fst (_sendWebhook net (S k)) in
      let n := length (sleeps trace) in
      n <= S m
      /\ fetches trace = seq k (S n)
      /\ (forall i d, sleeps trace !! i = Some d -> retried (net (k + i)) (k + i) d)
      /\ settled (net (k + n)) (k + n) (snd (_sendWebhook net (S k)))).
    { intros d0 Hd0. simpl. split; [lia|]. split; [now rewrite Hf|]. split.
      - intros [|i] d Hi; simpl in Hi.
        + injection Hi as <-. now rewrite Nat.add_0_r.
        + replace (k + S i) with (S k + i) by lia. now apply Hs.
      - replace (k + S (length (sleeps (fst (_sendWebhook net (S k))))))
          with (S k + length (sleeps (fst (_sendWebhook net (S k))))) by lia.
        exact Hres. }
    unfold tryBlock, retryable. rewrite Hlt.
    destruct (net k) as [e|r] eqn:Hnet; simpl.
    + destruct (String.eqb_spec (name e) "AbortError") as [Habort|Hother]; simpl.
      * split; [lia|]. split; [reflexivity|].
        split; [intros i d H; inversion H|].
        rewrite Nat.add_0_r, Hnet. unfold settled. simpl.
        split; [reflexivity|now right].
      * specialize (Hstep (backoff k)). apply Hstep.
        simpl. split; [assumption|reflexivity].
    + rewrite andb_true_r.
      destruct (Z.eqb_spec (status r) 429) as [H429|Hnot]; simpl.
      * specialize (Hstep (rateLimitDelay r k)).
        apply Hstep. simpl. split; [now apply status_429_not_ok|].
        now apply rateLimitDelay_cases.
      * destruct (ok r) eqn:Hok; simpl.
        -- split; [lia|]. split; [reflexivity|].
           split; [intros i d H; inversion H|].
           rewrite Nat.add_0_r, Hnet. unfold settled. simpl. rewrite Hok.
           eexists. reflexivity.
        -- specialize (Hstep (backoff k)). apply Hstep.
           simpl. split; [assumption|]. now rewrite not_429_cases.
Qed.

(** C6. A send makes at most three retries, one request per retry count
    from 0 on. Every retry follows a failed attempt that is not a
    cancellation; the wait before retry [k] is 1000 * 2^k ms after a
    transport or unexpected error, and after a 429 it is the Retry-After
    header, in seconds, times 1000 when the header is there and not empty,
    and 1000 * 2^k otherwise. The send settles as its last attempt does: a
    failure is the result only after the third retry, or at once for a
    cancellation. *)
Theorem C6_send_retries (net : nat -> FetchOutcome) :
  let trace := fst (_sendWebhook net 0) in
  let n := length (sleeps trace) in
  n <= 3
  /\ fetches trace = seq 0 (S n)
  /\ (forall k d, sleeps trace !! k = Some d -> retried (net k) k d)
  /\ settled (net n) n (snd (_sendWebhook net 0)).
Proof. exact (sendWebhook_from net 3 0 eq_refl). Qed.

Example transport_errors_back_off :
  _sendWebhook unreachable_host 0
  = ([Fetch 0; Sleep (Num 1000); Fetch 1; Sleep (Num 2000);
      Fetch 2; Sleep (Num 4000); Fetch 3],
     inl (mkError "TypeError" "fetch failed")).
Proof. reflexivity. Qed.

Example rate_limit_waits_as_told :
  _sendWebhook rate_limited 0
  = ([Fetch 0; Sleep (Num 2000); Fetch 1; Sleep (Num 2000);
      Fetch 2; Sleep (Num 2000); Fetch 3],
     inl (mkError "Error" "HTTP 429: slow down")).
Proof. reflexivity. Qed.

Example cancellation_is_final :
  _sendWebhook cancelled 0
  = ([Fetch 0], inl (mkError "AbortError" "This operation was aborted")).
Proof. reflexivity. Qed.

(** *** The Retry-After header as a number of seconds *)












End Retries.

(* ===================================================================== *)
(** ** Delivery of one video to every endpoint                           *)
(* ===================================================================== *)

Section FanOut.

Import Discord.

Lemma collectResults_acc (l : list Settled) : forall (f : nat -> nat) acc,
  foldl (fun results '(index, result) =>
           match result with
           | Fulfilled value => results ++ [value]
           | Rejected reason =>
               results ++ [mkResult index false (Some (reasonMessage reason))]
           end)
        acc (imap (fun i s => (f i, s)) l)
  = acc ++ imap (fun i s => resultOf (f i) s) l.
Proof.
  induction l as [|s l IH]; intros f acc.
  - simpl. now rewrite app_nil_r.
  - rewrite !imap_cons. cbn [foldl].
    rewrite (imap_ext _ (fun i s => (f (S i), s)) l) by reflexivity.
    rewrite (imap_ext (_ ∘ S) (fun i s => resultOf (f (S i)) s) l) by reflexivity.
    rewrite (IH (fun i => f (S i))).
    destruct s; now rewrite <- app_assoc.
Qed.

(** The loop pushes one result for each settled promise, in order. *)
Lemma collectResults_imap l : collectResults l = imap resultOf l.
Proof.
  unfold collectResults.
  rewrite (imap_ext pair (fun i s => (i, s)) l) by reflexivity.
  exact (collectResults_acc l (fun i => i) []).
Qed.

Lemma postToWebhook_fulfilled index net :
  postToWebhook index net = Fulfilled (outcomeOf index net).
Proof.
  unfold postToWebhook, outcomeOf. now destruct (postVideoNotification net).
Qed.

(** C7. Delivery to all endpoints is a total function to the list of the
    per-endpoint outcomes: one outcome for each endpoint, at the position
    and with the index of the endpoint; an endpoint whose send fails is
    recorded with [success = false] and the message of its error, whatever
    the other endpoints do. *)
Theorem C7_deliver_to_all_aggregates (webhooks : list (nat -> FetchOutcome)) :
  let results := Multi_postVideoNotification webhooks in
  length results = length webhooks
  /\ (forall i net, webhooks !! i = Some net ->
      results !! i = Some (outcomeOf i net))
  /\ (forall i net e, webhooks !! i = Some net ->
      postVideoNotification net = inl e ->
      results !! i = Some (mkResult i false (Some (message e))))
  /\ (forall i net v, webhooks !! i = Some net ->
      postVideoNotification net = inr v ->
      results !! i = Some (mkResult i true None)).
Proof.
  simpl. unfold Multi_postVideoNotification. rewrite collectResults_imap.
  assert (Hat : forall i net, webhooks !! i = Some net ->
            imap resultOf (imap postToWebhook webhooks) !! i
            = Some (outcomeOf i net)).
  { intros i net Hi. rewrite list_lookup_imap, list_lookup_imap, Hi. simpl.
    now rewrite postToWebhook_fulfilled. }
  split; [now rewrite !length_imap|]. split; [exact Hat|]. split.
  - intros i net e Hi He. rewrite (Hat i net Hi). unfold outcomeOf.
    now rewrite He.
  - intros i net v Hi Hv. rewrite (Hat i net Hi). unfold outcomeOf.
    now rewrite Hv.
Qed.

Example one_endpoint_down :
  Multi_postVideoNotification [unreachable_host; healthy; cancelled]
  = [mkResult 0 false (Some "fetch failed");
     mkResult 1 true None;
     mkResult 2 false (Some "This operation was aborted")].
Proof. reflexivity. Qed.

End FanOut.

(* ===================================================================== *)
(** ** Further properties of the cache                                   *)
(* ===================================================================== *)

Section CacheMore.

Import Cache.

Lemma onePerSource_fold l : onePerSource l = foldl sampleStep ([], []) l.
Proof. reflexivity. Qed.

Lemma keysOf_app l1 l2 : keysOf (l1 ++ l2) = keysOf l1 ++ keysOf l2.
Proof. unfold keysOf. apply map_app. Qed.

Lemma sampleStep_inv acc v : sampleInv acc -> sampleInv (sampleStep acc v).
Proof.
  destruct acc as [dev srcs]. intros [Hk Hnd]. unfold sampleStep.
  destruct (JS.Set_has (sourceKeyOf v) srcs) eqn:Hhas; simpl; [now split|].
  apply Set_has_false in Hhas. simpl in Hk, Hnd. split; simpl.
  - intros k. rewrite elem_of_Set_add, keysOf_app, elem_of_app, Hk. simpl.
    rewrite list_elem_of_singleton. tauto.
  - rewrite keysOf_app. apply NoDup_app. split; [assumption|]. split.
    + intros k Hin Hk1. simpl in Hk1. apply list_elem_of_singleton in Hk1.
      subst. apply Hhas. now apply Hk.
    + apply NoDup_singleton.
Qed.

(** The loop of development mode, from any coherent state. *)
Lemma sample_fold l : forall acc,
  sampleInv acc ->
  let r := foldl sampleStep acc l in
  sampleInv r
  /\ (exists ext, r.1 = acc.1 ++ ext /\ ext `sublist_of` l)
  /\ (forall v, v ∈ l -> sourceKeyOf v ∈ keysOf r.1)
  /\ (forall pre v post, l = pre ++ v :: post ->
        sourceKeyOf v ∉ keysOf pre -> sourceKeyOf v ∉ acc.2 -> v ∈ r.1).
Proof.
  induction l as [|w l IH]; intros acc Hinv; simpl.
  - split; [assumption|]. split; [exists []; split; [now rewrite app_nil_r|constructor]|].
    split; [intros v Hv; inversion Hv|].
    intros [|? ?] ? ? H; discriminate H.
  - pose proof (sampleStep_inv acc w Hinv) as Hinv1.
    destruct (IH (sampleStep acc w) Hinv1) as (Hr & (ext & Hext & Hsub) & Hcov & Hfirst).
    assert (Hstep : exists e1, (sampleStep acc w).1 = acc.1 ++ e1
                                /\ e1 `sublist_of` [w]
                                /\ sourceKeyOf w ∈ keysOf (sampleStep acc w).1
                                /\ (sourceKeyOf w ∉ acc.2 -> e1 = [w])
                                /\ (forall k, k ∈ (sampleStep acc w).2 ->
                                      k = sourceKeyOf w \/ k ∈ acc.2)).
    { destruct acc as [dev srcs]. unfold sampleStep.
      destruct (JS.Set_has (sourceKeyOf w) srcs) eqn:Hhas; simpl.
      - apply Set_has_true in Hhas. exists []. rewrite app_nil_r.
        split; [reflexivity|]. split; [apply sublist_nil_l|].
        split; [now apply (proj1 Hinv)|]. split; [contradiction|]. tauto.
      - exists [w]. split; [reflexivity|]. split; [reflexivity|].
        split; [rewrite keysOf_app, elem_of_app; right; simpl;
                apply list_elem_of_singleton; reflexivity|].
        split; [reflexivity|]. intros k Hk. apply elem_of_Set_add in Hk. tauto. }
    destruct Hstep as (e1 & He1 & Hs1 & Hw & Hnew & Hsrc).
    split; [assumption|]. split; [|split].
    + exists (e1 ++ ext). split.
      * rewrite Hext, He1. now rewrite app_assoc.
      * change (w :: l) with ([w] ++ l). now apply sublist_app.
    + intros v Hv. apply elem_of_cons in Hv as [->|Hv]; [|now apply Hcov].
      rewrite Hext, keysOf_app, elem_of_app. now left.
    + intros pre v post Heq Hpre Hacc.
      destruct pre as [|p pre]; simpl in Heq; injection Heq as <- ->.
      * rewrite Hext, He1, (Hnew Hacc). rewrite elem_of_app. left.
        rewrite elem_of_app. right. now apply list_elem_of_singleton.
      * apply (Hfirst pre v post eq_refl).
        -- intros Hin. apply Hpre. simpl. apply elem_of_cons. now right.
        -- intros Hin. apply Hsrc in Hin as [Hin|Hin]; [|contradiction].
           apply Hpre. simpl. apply elem_of_cons. now left.
Qed.

(** Whatever the policy, every identifier of the input is in the seen set
    after the call. *)
Lemma processVideos_marks_input vs flag mode c v :
  v ∈ vs -> id v ∈ seenVideoIds (snd (processVideos vs flag mode c)).
Proof.
  intros Hv.
  set (c1 := applySourceTimestamps (collectSourceTimestamps vs) c).
  assert (Hnew : id v ∈ seenVideoIds (markAllSeen (filterNewVideos vs c1) c1)).
  { apply elem_of_markAllSeen.
    destruct (decide (id v ∈ seenVideoIds c1)) as [Hin|Hout]; [now left|].
    right. exists v. split; [|reflexivity].
    apply elem_of_filterNewVideos. now split. }
  destruct (policyOf flag mode) eqn:Hp.
  - rewrite processVideos_bootstrapQuiet by assumption. simpl.
    apply elem_of_markAllSeen. right. now exists v.
  - rewrite processVideos_sampled by assumption. exact Hnew.
  - rewrite processVideos_full by assumption. exact Hnew.
Qed.

(** X1. In development mode the call returns one video for each source
    that has an unseen video: the returned list takes its videos from the
    unseen ones, in their order; no two of them have the same source; it
    holds every unseen video before which the input has no unseen video of
    the same source; and every unseen video of the input, returned or
    not, is marked seen. *)
Theorem X1_sampled_one_per_source
    (c : VideoCache) (videos : list Video) (isInitialRun : bool) (mode : string) :
  policyOf isInitialRun mode = Sampled ->
  let out := fst (processVideos videos isInitialRun mode c) in
  let c' := snd (processVideos videos isInitialRun mode c) in
  let unseen := List.filter (fun v => negb (JS.Set_has (id v) (seenVideoIds c))) videos in
  out `sublist_of` unseen
  /\ NoDup (keysOf out)
  /\ (forall v, v ∈ unseen -> sourceKeyOf v ∈ keysOf out)
  /\ (forall pre v post, unseen = pre ++ v :: post ->
        sourceKeyOf v ∉ keysOf pre -> v ∈ out)
  /\ (forall v, v ∈ videos -> id v ∈ seenVideoIds c').
Proof.
  intros Hp. simpl.
  split; [|split; [|split; [|split]]];
    try (intros v Hv; now apply processVideos_marks_input).
  all: rewrite processVideos_sampled by assumption; simpl.
  all: rewrite (filterNewVideos_ext videos _ c)
         by apply applySourceTimestamps_seen.
  all: change (List.filter _ videos) with (filterNewVideos videos c).
  all: rewrite onePerSource_fold.
  all: assert (Hinit : sampleInv ([], [])) by
         (split; [intros k; simpl; tauto|constructor]).
  all: destruct (sample_fold (filterNewVideos videos c) ([], []) Hinit)
         as (Hr & (ext & Hext & Hsub) & Hcov & Hfirst).
  - simpl in Hext. now rewrite Hext.
  - apply Hr.
  - exact Hcov.
  - intros pre v post Heq Hpre. apply (Hfirst pre v post Heq Hpre).
    simpl. intros H. inversion H.
Qed.

Lemma X1_sampled_one_per_source_witness :
  let c := new_VideoCache None 0 in
  let out := fst (processVideos [va; vb; vc] false "development" c) in
  let c' := snd (processVideos [va; vb; vc] false "development" c) in
  let unseen := List.filter (fun v => negb (JS.Set_has (id v) (seenVideoIds c)))
                            [va; vb; vc] in
  out `sublist_of` unseen
  /\ NoDup (keysOf out)
  /\ (forall v, v ∈ unseen -> sourceKeyOf v ∈ keysOf out)
  /\ (forall pre v post, unseen = pre ++ v :: post ->
        sourceKeyOf v ∉ keysOf pre -> v ∈ out)
  /\ (forall v, v ∈ [va; vb; vc] -> id v ∈ seenVideoIds c').
Proof.
  apply (X1_sampled_one_per_source (new_VideoCache None 0) [va; vb; vc]
           false "development").
  reflexivity.
Defined.

End CacheMore.

Section CacheSeen.

Import Cache.

Lemma elem_of_markMultipleAsSeen ids : forall c x,
  x ∈ seenVideoIds (markMultipleAsSeen ids c) <-> x ∈ ids \/ x ∈ seenVideoIds c.
Proof.
  unfold markMultipleAsSeen.
  induction ids as [|i ids IH]; intros c x; simpl.
  - split; [tauto|]. intros [H|H]; [inversion H|assumption].
  - rewrite IH. simpl. rewrite elem_of_Set_add, elem_of_cons. tauto.
Qed.

Lemma save_seen force now c fs :
  seenVideoIds (fst (save force now c fs)) = seenVideoIds c.
Proof.
  unfold save. destruct (statePath c); [|reflexivity].
  destruct (negb force && (now - lastSaveTime c <? 30000)%Z); [reflexivity|].
  now destruct (writeFile _ _ fs).
Qed.

(** Every operation but [cleanup] keeps what is in the seen set. *)
Lemma perform_keeps_seen op st x :
  isCleanup op = false ->
  x ∈ seenVideoIds (fst st) -> x ∈ seenVideoIds (fst (perform st op)).
Proof.
  destruct st as [c fs]. destruct op; simpl; intros Hop Hx; try discriminate.
  - apply elem_of_Set_add. now right.
  - apply elem_of_markMultipleAsSeen. now right.
  - now rewrite updateLatestTimestamp_seen.
  - eapply extends_elem; [apply processVideos_extends|assumption].
  - now rewrite save_seen.
  - unfold shutdown. now rewrite save_seen.
Qed.

Lemma run_keeps_seen ops : forall st x,
  Forall (fun op => isCleanup op = false) ops ->
  x ∈ seenVideoIds (fst st) -> x ∈ seenVideoIds (fst (foldl perform st ops)).
Proof.
  induction ops as [|op ops IH]; intros st x Hops Hx; simpl; [assumption|].
  apply Forall_cons in Hops as [Hop Hops].
  apply IH; [assumption|]. now apply perform_keeps_seen.
Qed.

(** X2. A video whose identifier was in the input of a call of
    [processVideos] is not returned by a later call, whatever the policies
    of the two calls and whatever is done to the cache in between, as long
    as [cleanup] is not run in between. *)
Theorem X2_no_redelivery_between_cleanups
    (c : VideoCache) (fs : FS) (videos1 videos2 : list Video)
    (flag1 flag2 : bool) (mode1 mode2 : string) (ops : list Op) :
  Forall (fun op => isCleanup op = false) ops ->
  let c1 := snd (processVideos videos1 flag1 mode1 c) in
  let c2 := fst (foldl perform (c1, fs) ops) in
  forall v1 v2,
    v1 ∈ videos1 ->
    v2 ∈ fst (processVideos videos2 flag2 mode2 c2) ->
    id v2 <> id v1.
Proof.
  intros Hops c1 c2 v1 v2 H1 H2 Heq.
  apply processVideos_delivers_new in H2 as [_ Hnew]. apply Hnew.
  rewrite Heq. subst c2. apply run_keeps_seen; [assumption|]. simpl.
  subst c1. now apply processVideos_marks_input.
Qed.

Lemma X2_no_redelivery_between_cleanups_witness :
  let c1 := snd (processVideos [va; vb] true "production" (new_VideoCache None 0)) in
  let c2 := fst (foldl perform (c1, empty_disk)
                   [OpSave false 10; OpMarkAsSeen "z"]) in
  va ∈ [va; vb]
  /\ vc ∈ fst (processVideos [vb; vc] false "production" c2)
  /\ id vc <> id va.
Proof.
  assert (Hfirst : va ∈ [va; vb]) by (apply elem_of_cons; now left).
  assert (Hsecond :
    vc ∈ fst (processVideos [vb; vc] false "production"
                (fst (foldl perform
                        (snd (processVideos [va; vb] true "production"
                                (new_VideoCache None 0)), empty_disk)
                        [OpSave false 10; OpMarkAsSeen "z"])))).
  { change (vc ∈ [vc]). apply elem_of_cons. now left. }
  split; [exact Hfirst|]. split; [exact Hsecond|].
  apply (X2_no_redelivery_between_cleanups (new_VideoCache None 0) empty_disk
           [va; vb] [vb; vc] true false "production" "production"
           [OpSave false 10; OpMarkAsSeen "z"]
           ltac:(repeat constructor) va vc Hfirst Hsecond).
Defined.

(** X3. Looking up the seen set after marking: an identifier is seen after
    [markAsSeen y] exactly when it is [y] or was seen before, and after
    [markMultipleAsSeen ids] exactly when it is among [ids] or was seen
    before; marked videos are filtered out by [filterNewVideos]. *)
Theorem X3_mark_then_lookup (c : VideoCache) (x y : string) (ids : list string)
    (videos : list Video) :
  (hasBeenSeen x (markAsSeen y c) = true <-> x = y \/ hasBeenSeen x c = true)
  /\ (hasBeenSeen x (markMultipleAsSeen ids c) = true
      <-> x ∈ ids \/ hasBeenSeen x c = true)
  /\ (forall v, v ∈ filterNewVideos videos (markMultipleAsSeen ids c) ->
        (id v ∉ ids) /\ v ∈ filterNewVideos videos c).
Proof.
  unfold hasBeenSeen. split; [|split].
  - rewrite !Set_has_true. simpl. apply elem_of_Set_add.
  - rewrite !Set_has_true. apply elem_of_markMultipleAsSeen.
  - intros v Hv. apply elem_of_filterNewVideos in Hv as [Hin Hnot].
    rewrite elem_of_markMultipleAsSeen in Hnot. split; [tauto|].
    apply elem_of_filterNewVideos. tauto.
Qed.

End CacheSeen.

Section CacheTimestamps.

Import Cache.

Lemma Map_get_set_eq {V} k (v : V) m : JS.Map_get k (JS.Map_set k v m) = Some v.
Proof.
  induction m as [|[k' v'] m IH]; simpl.
  - now rewrite String.eqb_refl.
  - destruct (String.eqb k k') eqn:Hk; simpl.
    + now rewrite String.eqb_refl.
    + now rewrite Hk.
Qed.

Lemma Map_get_set_ne {V} k k' (v : V) m :
  k <> k' -> JS.Map_get k' (JS.Map_set k v m) = JS.Map_get k' m.
Proof.
  intros Hne. induction m as [|[k0 v0] m IH]; simpl.
  - destruct (String.eqb_spec k' k); [congruence|reflexivity].
  - destruct (String.eqb_spec k k0) as [->|Hk]; simpl.
    + destruct (String.eqb_spec k' k0); [congruence|reflexivity].
    + destruct (String.eqb_spec k' k0); [reflexivity|assumption].
Qed.

Lemma Map_get_elem {V} k (v : V) m : JS.Map_get k m = Some v -> (k, v) ∈ m.
Proof.
  induction m as [|[k0 v0] m IH]; simpl; [discriminate|].
  destruct (String.eqb_spec k k0) as [->|Hk].
  - intros [= ->]. apply elem_of_cons. now left.
  - intros H. apply elem_of_cons. right. now apply IH.
Qed.

Lemma Map_set_elem {V} k (v : V) m e :
  e ∈ JS.Map_set k v m -> e = (k, v) \/ e ∈ m.
Proof.
  induction m as [|[k0 v0] m IH]; simpl.
  - intros H. apply list_elem_of_singleton in H. now left.
  - destruct (String.eqb k k0).
    + intros H. apply elem_of_cons in H as [->|H]; [now left|].
      right. apply elem_of_cons. now right.
    + intros H. apply elem_of_cons in H as [->|H].
      * right. apply elem_of_cons. now left.
      * apply IH in H as [->|H]; [now left|].
        right. apply elem_of_cons. now right.
Qed.

(** The first loop of [processVideos], from any local map: every video is
    covered by an entry that is not older, an entry never gets older, and
    every entry comes from the map or from a video. *)
Lemma collect_fold vs : forall acc,
  let step := fun sourceTimestamps video =>
    match JS.Map_get (sourceKeyOf video) sourceTimestamps with
    | None => JS.Map_set (sourceKeyOf video) (published video) sourceTimestamps
    | Some currentLatest =>
        if (currentLatest <? published video)%Z
        then JS.Map_set (sourceKeyOf video) (published video) sourceTimestamps
        else sourceTimestamps
    end in
  let res := foldl step acc vs in
  (forall v, v ∈ vs ->
     exists t, JS.Map_get (sourceKeyOf v) res = Some t /\ (published v <= t)%Z)
  /\ (forall k t, JS.Map_get k acc = Some t ->
        exists t', JS.Map_get k res = Some t' /\ (t <= t')%Z)
  /\ (forall k t, (k, t) ∈ res ->
        (k, t) ∈ acc
        \/ exists v, v ∈ vs /\ sourceKeyOf v = k /\ published v = t).
Proof.
  induction vs as [|w vs IH]; intros acc; simpl.
  - split; [intros v Hv; inversion Hv|].
    split; [intros k t H; exists t; split; [assumption|lia]|].
    intros k t H. now left.
  - set (acc1 := match JS.Map_get (sourceKeyOf w) acc with
                 | Some currentLatest =>
                     if (currentLatest <? published w)%Z
                     then JS.Map_set (sourceKeyOf w) (published w) acc
                     else acc
                 | None => JS.Map_set (sourceKeyOf w) (published w) acc
                 end).
    destruct (IH acc1) as (Hcov & Hmono & Hprov).
    assert (Hw : exists t, JS.Map_get (sourceKeyOf w) acc1 = Some t
                           /\ (published w <= t)%Z).
    { subst acc1. destruct (JS.Map_get (sourceKeyOf w) acc) as [cur|] eqn:Hget.
      - destruct (Z.ltb_spec cur (published w)).
        + exists (published w). rewrite Map_get_set_eq. split; [reflexivity|lia].
        + exists cur. split; [assumption|lia].
      - exists (published w). rewrite Map_get_set_eq. split; [reflexivity|lia]. }
    assert (Hacc : forall k t, JS.Map_get k acc = Some t ->
                     exists t', JS.Map_get k acc1 = Some t' /\ (t <= t')%Z).
    { intros k t Hk. subst acc1.
      destruct (decide (sourceKeyOf w = k)) as [<-|Hne].
      - rewrite Hk. destruct (Z.ltb_spec t (published w)).
        + exists (published w). rewrite Map_get_set_eq. split; [reflexivity|lia].
        + exists t. split; [assumption|lia].
      - exists t. split; [|lia].
        destruct (JS.Map_get (sourceKeyOf w) acc) as [cur|];
          [destruct (cur <? published w)%Z|];
          rewrite ?Map_get_set_ne by assumption; assumption. }
    assert (Hfrom : forall k t, (k, t) ∈ acc1 ->
                      (k, t) ∈ acc \/ (sourceKeyOf w = k /\ published w = t)).
    { intros k t Hk. subst acc1.
      destruct (JS.Map_get (sourceKeyOf w) acc) as [cur|];
        [destruct (cur <? published w)%Z|]; try (now left);
        apply Map_set_elem in Hk as [[= -> ->]|Hk]; auto. }
    split; [|split].
    + intros v Hv. apply elem_of_cons in Hv as [->|Hv]; [|now apply Hcov].
      destruct Hw as (t & Ht & Hle).
      destruct (Hmono _ _ Ht) as (t' & Ht' & Hle').
      exists t'. split; [assumption|lia].
    + intros k t Hk. destruct (Hacc k t Hk) as (t1 & Ht1 & Hle1).
      destruct (Hmono _ _ Ht1) as (t' & Ht' & Hle').
      exists t'. split; [assumption|lia].
    + intros k t Hk. destruct (Hprov k t Hk) as [H1|(v & Hv & Hkv & Hpv)].
      * destruct (Hfrom k t H1) as [H0|[Hk0 Hp0]]; [now left|].
        right. exists w. split; [apply elem_of_cons; now left|now split].
      * right. exists v. split; [apply elem_of_cons; now right|now split].
Qed.

Lemma updateLatestTimestamp_lookup s t c k :
  latestVideoTimestamps (updateLatestTimestamp s t c) !! k
  = if decide (s = k)
    then Some (match latestVideoTimestamps c !! s with
               | Some old => Z.max old t
               | None => t
               end)
    else latestVideoTimestamps c !! k.
Proof.
  unfold updateLatestTimestamp.
  destruct (latestVideoTimestamps c !! s) as [old|] eqn:Hs.
  - destruct (Z.ltb_spec old t); simpl.
    + destruct (decide (s = k)) as [<-|Hne].
      * rewrite lookup_insert_eq. f_equal. lia.
      * now rewrite lookup_insert_ne.
    + destruct (decide (s = k)) as [<-|Hne]; [|reflexivity].
      rewrite Hs. f_equal. lia.
  - simpl. destruct (decide (s = k)) as [<-|Hne].
    + now rewrite lookup_insert_eq.
    + now rewrite lookup_insert_ne.
Qed.

Lemma applySourceTimestamps_covers l : forall c k t,
  (k, t) ∈ l ->
  exists t', latestVideoTimestamps (applySourceTimestamps l c) !! k = Some t'
             /\ (t <= t')%Z.
Proof.
  unfold applySourceTimestamps.
  induction l as [|[k0 t0] l IH]; intros c k t Hin; [inversion Hin|].
  simpl. apply elem_of_cons in Hin as [[= -> ->]|Hin]; [|now apply IH].
  pose proof (applySourceTimestamps_mono l (updateLatestTimestamp k0 t0 c) k0) as Hm.
  unfold applySourceTimestamps in Hm.
  rewrite updateLatestTimestamp_lookup in Hm.
  destruct (decide (k0 = k0)) as [_|]; [|contradiction]. simpl in Hm.
  destruct Hm as (t' & Ht' & Hle). exists t'. split; [assumption|].
  destruct (latestVideoTimestamps c !! k0); lia.
Qed.

Lemma applySourceTimestamps_provenance l : forall c k t,
  latestVideoTimestamps (applySourceTimestamps l c) !! k = Some t ->
  latestVideoTimestamps c !! k = Some t \/ (k, t) ∈ l.
Proof.
  unfold applySourceTimestamps.
  induction l as [|[k0 t0] l IH]; intros c k t H; simpl in H; [now left|].
  apply IH in H as [H|H]; [|right; apply elem_of_cons; now right].
  rewrite updateLatestTimestamp_lookup in H.
  destruct (decide (k0 = k)) as [<-|Hne]; [|now left].
  destruct (latestVideoTimestamps c !! k0) as [old|] eqn:Hold.
  - injection H as <-. destruct (Z.max_spec old t0) as [[_ ->]|[_ ->]].
    + right. apply elem_of_cons. now left.
    + now left.
  - injection H as <-. right. apply elem_of_cons. now left.
Qed.

Lemma processVideos_latest_spec
    (c : VideoCache) (videos : list Video) (isInitialRun : bool) (mode : string) :
  let c' := snd (processVideos videos isInitialRun mode c) in
  (forall v, v ∈ videos ->
     exists t, getLatestTimestamp (sourceKeyOf v) c' = Some t
               /\ (published v <= t)%Z)
  /\ (forall k t, getLatestTimestamp k c' = Some t ->
        getLatestTimestamp k c = Some t
        \/ exists v, v ∈ videos /\ sourceKeyOf v = k /\ published v = t).
Proof.
  simpl. unfold getLatestTimestamp. rewrite processVideos_latest.
  destruct (collect_fold videos []) as (Hcov & _ & Hprov).
  fold (collectSourceTimestamps videos) in Hcov, Hprov.
  split.
  - intros v Hv. destruct (Hcov v Hv) as (t & Ht & Hle).
    apply Map_get_elem in Ht.
    destruct (applySourceTimestamps_covers _ c _ _ Ht) as (t' & Ht' & Hle').
    exists t'. split; [assumption|lia].
  - intros k t Hk.
    apply applySourceTimestamps_provenance in Hk as [Hk|Hk]; [now left|].
    destruct (Hprov k t Hk) as [H|H]; [inversion H|now right].
Qed.

(** X4. After [processVideos], whatever the policy, the timestamp stored
    for the source of each input video is at least the publication date of
    the video; and each stored timestamp either was stored before or is the
    publication date of an input video of that source. *)
Theorem X4_latest_is_max_of_input
    (c : VideoCache) (videos : list Video) (isInitialRun : bool) (mode : string) :
  let c' := snd (processVideos videos isInitialRun mode c) in
  (forall v, v ∈ videos ->
     exists t, getLatestTimestamp (sourceKeyOf v) c' = Some t
               /\ (published v <= t)%Z)
  /\ (forall k t, getLatestTimestamp k c' = Some t ->
        getLatestTimestamp k c = Some t
        \/ exists v, v ∈ videos /\ sourceKeyOf v = k /\ published v = t).
Proof. exact (processVideos_latest_spec c videos isInitialRun mode). Qed.

End CacheTimestamps.

Section CacheTimestampQueries.

Import Cache.

(** X5. Reading a timestamp after [updateLatestTimestamp s t]: the source
    [s] holds the newer of its former timestamp and [t] ([t] itself when it
    had none), and every other source holds what it held. *)
Theorem X5_update_then_get (c : VideoCache) (s k : string) (t : Z) :
  getLatestTimestamp k (updateLatestTimestamp s t c)
  = if decide (s = k)
    then Some (match getLatestTimestamp s c with
               | Some old => Z.max old t
               | None => t
               end)
    else getLatestTimestamp k c.
Proof. unfold getLatestTimestamp. apply updateLatestTimestamp_lookup. Qed.

Lemma channelKey v S :
  sourceType v = "channel" -> sourceId v = S -> sourceKeyOf v = "channel:" +:+ S.
Proof. unfold sourceKeyOf. intros -> ->. reflexivity. Qed.

Lemma filter_none {A} (f : A -> bool) l :
  (forall x, x ∈ l -> f x = false) -> List.filter f l = [].
Proof.
  induction l as [|a l IH]; intros H; simpl; [reflexivity|].
  rewrite (H a) by (apply elem_of_cons; now left).
  apply IH. intros x Hx. apply H, elem_of_cons. now right.
Qed.

(** X6. [filterByTimestamp] returns every video when neither the channel
    key nor the playlist key of the source has a timestamp; and once
    [processVideos] has run on a batch, it returns nothing for the videos of
    that batch that come from the channel [S]. *)
Theorem X6_filterByTimestamp
    (c : VideoCache) (videos batch : list Video) (S : string)
    (isInitialRun : bool) (mode : string) :
  (forall v, v ∈ videos ->
     v ∈ batch /\ sourceType v = "channel" /\ sourceId v = S) ->
  filterByTimestamp videos S (snd (processVideos batch isInitialRun mode c)) = []
  /\ (getLatestTimestamp ("channel:" +:+ S) c = None ->
      getLatestTimestamp ("playlist:" +:+ S) c = None ->
      filterByTimestamp videos S c = videos).
Proof.
  intros Hvs. split.
  - destruct (processVideos_latest_spec c batch isInitialRun mode) as [Hcov _].
    unfold filterByTimestamp.
    destruct videos as [|v0 rest].
    { now destruct (match getLatestTimestamp _ _ with Some _ => _ | None => _ end). }
    destruct (Hvs v0 ltac:(apply elem_of_cons; now left)) as (Hb0 & Ht0 & Hs0).
    destruct (Hcov v0 Hb0) as (T & HT & _).
    rewrite (channelKey v0 S Ht0 Hs0) in HT. rewrite HT.
    apply filter_none. intros v Hv.
    destruct (Hvs v Hv) as (Hb & Ht & Hs).
    destruct (Hcov v Hb) as (t & Hget & Hle).
    rewrite (channelKey v S Ht Hs), HT in Hget. injection Hget as <-.
    apply Z.ltb_ge. exact Hle.
  - intros Hc Hp. unfold filterByTimestamp. now rewrite Hc, Hp.
Qed.

Lemma X6_filterByTimestamp_witness :
  filterByTimestamp [va; vb] "S1"
    (snd (processVideos [va; vb; vc] false "production" (new_VideoCache None 0)))
  = []
  /\ (getLatestTimestamp ("channel:" +:+ "S1") (new_VideoCache None 0) = None ->
      getLatestTimestamp ("playlist:" +:+ "S1") (new_VideoCache None 0) = None ->
      filterByTimestamp [va; vb] "S1" (new_VideoCache None 0) = [va; vb]).
Proof.
  apply (X6_filterByTimestamp (new_VideoCache None 0) [va; vb] [va; vb; vc]
           "S1" false "production").
  intros v Hv.
  apply elem_of_cons in Hv as [->|Hv];
    [|apply elem_of_cons in Hv as [->|Hv]; [|inversion Hv]];
    (split; [|split; reflexivity]).
  - apply elem_of_cons. now left.
  - apply elem_of_cons. right. apply elem_of_cons. now left.
Defined.

End CacheTimestampQueries.

Section CleanupMore.

Import Cache.

Lemma str_le_trans : Transitive JS.str_le.
Proof.
  intros a b d Hab Hbd. unfold JS.str_le in *.
  apply Is_true_true. apply Is_true_true in Hab, Hbd.
  exact (transitivity (R := String.le) Hab Hbd).
Qed.

Lemma str_le_total : Total JS.str_le.
Proof. intros a b. unfold JS.str_le. apply String.leb_total. Qed.

Lemma sort_sorted l : StronglySorted JS.str_le (JS.sort l).
Proof.
  unfold JS.sort.
  exact (@StronglySorted_merge_sort _ JS.str_le _ str_le_trans str_le_total l).
Qed.

Lemma sort_length l : length (JS.sort l) = length l.
Proof. unfold JS.sort. now rewrite merge_sort_Permutation. Qed.

Lemma sort_NoDup l : NoDup l -> NoDup (JS.sort l).
Proof. unfold JS.sort. now rewrite merge_sort_Permutation. Qed.

Lemma NoDup_Set_from_acc array : forall acc,
  NoDup acc -> NoDup (foldl (fun s y => JS.Set_add y s) acc array).
Proof.
  induction array as [|a array IH]; intros acc Hnd; simpl; [assumption|].
  apply IH. now apply Set_add_NoDup.
Qed.

(** [new Set(array)] never holds an element twice. *)
Lemma NoDup_Set_from array : NoDup (JS.Set_from array).
Proof. unfold JS.Set_from. apply NoDup_Set_from_acc. constructor. Qed.

Lemma slice_from_last (m : Z) (l : list string) :
  (0 < m)%Z -> (m < Z.of_nat (length l))%Z ->
  JS.slice_from (- m) l = drop (length l - Z.to_nat m) l.
Proof.
  intros Hpos Hlt. unfold JS.slice_from.
  destruct (Z.ltb_spec (- m) 0); [|lia].
  f_equal. lia.
Qed.

(** X7. [cleanup] with a positive bound, on a seen set without duplicates,
    leaves at most [maxEntries] identifiers; when the bound is exceeded it
    leaves exactly [maxEntries] of them, in ascending order, and each
    identifier it drops is below each one it keeps in the order of
    [sort()]. *)
Theorem X7_cleanup_keeps_largest (c : VideoCache) (maxEntries : Z) :
  NoDup (seenVideoIds c) ->
  (0 < maxEntries)%Z ->
  let kept := seenVideoIds (cleanup maxEntries c) in
  (Z.of_nat (length kept) <= maxEntries)%Z
  /\ ((maxEntries < Z.of_nat (length (seenVideoIds c)))%Z ->
      Z.of_nat (length kept) = maxEntries
      /\ StronglySorted JS.str_le kept
      /\ forall k d, k ∈ kept -> d ∈ seenVideoIds c -> d ∉ kept ->
           JS.str_le d k).
Proof.
  intros Hnd Hpos. simpl.
  assert (Hover : (maxEntries < Z.of_nat (length (seenVideoIds c)))%Z ->
            seenVideoIds (cleanup maxEntries c)
            = drop (length (seenVideoIds c) - Z.to_nat maxEntries)
                   (JS.sort (seenVideoIds c))).
  { intros Hlt. unfold cleanup.
    destruct (Z.leb_spec (Z.of_nat (length (seenVideoIds c))) maxEntries); [lia|].
    simpl. rewrite slice_from_last by (rewrite ?sort_length; lia).
    rewrite sort_length. apply Set_from_NoDup.
    apply (sublist_NoDup _ (JS.sort (seenVideoIds c)));
      [now apply sort_NoDup|apply sublist_drop]. }
  split.
  - destruct (Z.le_gt_cases (Z.of_nat (length (seenVideoIds c))) maxEntries)
      as [Hle|Hgt].
    + unfold cleanup. apply Z.leb_le in Hle as Hb. rewrite Hb. exact Hle.
    + rewrite (Hover ltac:(lia)), length_drop, sort_length. lia.
  - intros Hlt. rewrite (Hover Hlt). split; [|split].
    + rewrite length_drop, sort_length. lia.
    + pose proof (sort_sorted (seenVideoIds c)) as Hs.
      rewrite <- (take_drop (length (seenVideoIds c) - Z.to_nat maxEntries)
                    (JS.sort (seenVideoIds c))) in Hs.
      now apply StronglySorted_app_1_r in Hs.
    + intros k d Hk Hd Hnot.
      pose proof (sort_sorted (seenVideoIds c)) as Hs.
      rewrite <- (take_drop (length (seenVideoIds c) - Z.to_nat maxEntries)
                    (JS.sort (seenVideoIds c))) in Hs.
      apply (StronglySorted_app_1_elem_of _ _ _ d k Hs); [|assumption].
      apply (proj2 (elem_of_sort _ _)) in Hd.
      rewrite <- (take_drop (length (seenVideoIds c) - Z.to_nat maxEntries)
                    (JS.sort (seenVideoIds c))) in Hd.
      apply elem_of_app in Hd as [Hd|Hd]; [assumption|contradiction].
Qed.

Lemma X7_cleanup_keeps_largest_witness :
  let c := mkCache None ["a"; "c"; "b"; "d"] ∅ 0 in
  let kept := seenVideoIds (cleanup 3 c) in
  (Z.of_nat (length kept) <= 3)%Z
  /\ ((3 < Z.of_nat (length (seenVideoIds c)))%Z ->
      Z.of_nat (length kept) = 3%Z
      /\ StronglySorted JS.str_le kept
      /\ forall k d, k ∈ kept -> d ∈ seenVideoIds c -> d ∉ kept ->
           JS.str_le d k).
Proof.
  apply (X7_cleanup_keeps_largest (mkCache None ["a"; "c"; "b"; "d"] ∅ 0) 3).
  - simpl. apply NoDup_ListNoDup. repeat constructor; simpl; intuition discriminate.
  - lia.
Defined.

(** X8. [cleanup(0)] evicts nothing: with the bound 0 the slice taken from
    the sorted identifiers is the whole array, so the seen set keeps all its
    elements. *)
Theorem X8_cleanup_zero_evicts_nothing (c : VideoCache) (x : string) :
  x ∈ seenVideoIds (cleanup 0 c) <-> x ∈ seenVideoIds c.
Proof.
  unfold cleanup.
  destruct (Z.of_nat (length (seenVideoIds c)) <=? 0)%Z; [reflexivity|].
  simpl. rewrite elem_of_Set_from. unfold JS.slice_from.
  change (- 0 <? 0)%Z with false. cbv iota.
  rewrite Z.min_l by lia. simpl. apply elem_of_sort.
Qed.

End CleanupMore.

Section PersistenceMore.

Import Cache.

Lemma markMultipleAsSeen_file ids : forall c,
  cacheFile (markMultipleAsSeen ids c) = cacheFile c
  /\ lastSaveTime (markMultipleAsSeen ids c) = lastSaveTime c.
Proof.
  unfold markMultipleAsSeen.
  induction ids as [|i ids IH]; intros c; simpl; [now split|].
  destruct (IH (set_seen (JS.Set_add i (seenVideoIds c)) c)) as [-> ->].
  now split.
Qed.

Lemma cleanup_file maxEntries c :
  cacheFile (cleanup maxEntries c) = cacheFile c
  /\ lastSaveTime (cleanup maxEntries c) = lastSaveTime c.
Proof.
  unfold cleanup.
  now destruct (Z.of_nat (length (seenVideoIds c)) <=? maxEntries)%Z.
Qed.

Lemma save_cacheFile force now c fs :
  cacheFile (fst (save force now c fs)) = cacheFile c.
Proof.
  unfold save. destruct (statePath c); [|reflexivity].
  destruct (negb force && (now - lastSaveTime c <? 30000)%Z); [reflexivity|].
  now destruct (writeFile _ _ fs).
Qed.

(** No operation changes the path of the state file. *)
Lemma perform_cacheFile op st :
  cacheFile (fst (perform st op)) = cacheFile (fst st).
Proof.
  destruct st as [c fs]. destruct op; simpl; try reflexivity.
  - apply markMultipleAsSeen_file.
  - apply updateLatestTimestamp_file.
  - apply processVideos_file.
  - apply cleanup_file.
  - apply save_cacheFile.
  - apply save_cacheFile.
Qed.

(** An operation that is not a save leaves the disk and the time of the
    last save as they are. *)
Lemma perform_nosave op st :
  isSave op = false ->
  lastSaveTime (fst (perform st op)) = lastSaveTime (fst st)
  /\ snd (perform st op) = snd st.
Proof.
  destruct st as [c fs]. destruct op; simpl; intros Hop; try discriminate;
    (split; [|reflexivity]); try reflexivity.
  - apply markMultipleAsSeen_file.
  - apply updateLatestTimestamp_file.
  - apply processVideos_file.
  - apply cleanup_file.
Qed.

Lemma run_nosave ops : forall st,
  Forall (fun op => isSave op = false) ops ->
  cacheFile (fst (foldl perform st ops)) = cacheFile (fst st)
  /\ lastSaveTime (fst (foldl perform st ops)) = lastSaveTime (fst st)
  /\ snd (foldl perform st ops) = snd st.
Proof.
  induction ops as [|op ops IH]; intros st Hops; simpl; [now repeat split|].
  apply Forall_cons in Hops as [Hop Hops].
  destruct (IH (perform st op) Hops) as (-> & -> & ->).
  rewrite perform_cacheFile.
  destruct (perform_nosave op st Hop) as [-> ->]. now repeat split.
Qed.

(** A load from a disk that holds a snapshot of [c] gives the seen set and
    the timestamps of [c]. *)
Lemma load_snapshot file start now c fs path :
  statePath (new_VideoCache file start) = Some path ->
  files fs !! path = Some (Document (snapshot now c)) ->
  (forall x, x ∈ seenVideoIds (load file start fs) <-> x ∈ seenVideoIds c)
  /\ latestVideoTimestamps (load file start fs) = latestVideoTimestamps c.
Proof.
  intros Hpath Hfile. unfold load, initialize. rewrite Hpath, Hfile. simpl.
  split; [intros x; apply elem_of_Set_from|apply Map_from_fromEntries].
Qed.

(** X9. After a save that wrote the state file, a save that is not forced
    and comes less than 30 seconds later writes nothing, whatever was done
    to the cache in between: the disk is as the first save left it, and a
    load gives the seen set and the timestamps of the cache at the time of
    the first save. *)
Theorem X9_throttled_save_keeps_previous_snapshot
    (c : VideoCache) (fs : FS) (path : string) (force : bool)
    (now1 now2 start : Z) (ops : list Op) :
  statePath c = Some path ->
  writable fs = true ->
  force = true \/ (30000 <= now1 - lastSaveTime c)%Z ->
  Forall (fun op => isSave op = false) ops ->
  (now2 - now1 < 30000)%Z ->
  let c1 := fst (save force now1 c fs) in
  let fs1 := snd (save force now1 c fs) in
  let c2 := fst (foldl perform (c1, fs1) ops) in
  let fs3 := snd (save false now2 c2 fs1) in
  fs3 = fs1
  /\ (forall x, x ∈ seenVideoIds (load (cacheFile c) start fs3)
                <-> x ∈ seenVideoIds c)
  /\ latestVideoTimestamps (load (cacheFile c) start fs3)
     = latestVideoTimestamps c.
Proof.
  intros Hpath Hw Hdue Hops Hsoon. simpl.
  rewrite (save_written force now1 c fs path) by assumption. simpl.
  destruct (run_nosave ops
              (set_lastSaveTime now1 c,
               mkFS (<[path := Document (snapshot now1 c)]> (files fs))
                    (writable fs)) Hops) as (_ & Hlast & _).
  simpl in Hlast.
  rewrite save_throttled by (rewrite Hlast; exact Hsoon). simpl.
  split; [reflexivity|].
  apply (load_snapshot _ _ now1 c _ path); [exact Hpath|].
  simpl. apply lookup_insert_eq.
Qed.

Lemma X9_throttled_save_keeps_previous_snapshot_witness :
  let c := sample_cache in
  let c1 := fst (save true 2000 c empty_disk) in
  let fs1 := snd (save true 2000 c empty_disk) in
  let c2 := fst (foldl perform (c1, fs1) [OpMarkAsSeen "z"]) in
  let fs3 := snd (save false 9000 c2 fs1) in
  fs3 = fs1
  /\ (forall x, x ∈ seenVideoIds (load (cacheFile c) 10000 fs3)
                <-> x ∈ seenVideoIds c)
  /\ latestVideoTimestamps (load (cacheFile c) 10000 fs3)
     = latestVideoTimestamps c.
Proof.
  apply (X9_throttled_save_keeps_previous_snapshot sample_cache empty_disk
           "cache.json" true 2000 9000 10000 [OpMarkAsSeen "z"]).
  - reflexivity.
  - reflexivity.
  - left. reflexivity.
  - repeat constructor.
  - lia.
Defined.

Lemma perform_memory_only op st :
  statePath (fst st) = None -> snd (perform st op) = snd st.
Proof.
  destruct st as [c fs]. destruct op; simpl; intros Hp; try reflexivity;
    unfold shutdown, save; now rewrite Hp.
Qed.

Lemma statePath_cacheFile c c' :
  cacheFile c = cacheFile c' -> statePath c = statePath c'.
Proof. unfold statePath. now intros ->. Qed.

(** X10. In memory-only mode (no path, or an empty one) the disk is never
    read and never written: the cache starts empty whatever the disk holds,
    and the disk is the same after any sequence of operations, forced saves
    and shutdown included. *)
Theorem X10_memory_only_never_touches_disk
    (file : option string) (start : Z) (fs : FS) (ops : list Op) :
  statePath (new_VideoCache file start) = None ->
  fst (lifetime file start fs []) = new_VideoCache file start
  /\ snd (lifetime file start fs ops) = fs.
Proof.
  intros Hmem. unfold lifetime, initialize. rewrite Hmem. simpl.
  split; [reflexivity|].
  assert (Hgen : forall ops st, statePath (fst st) = None ->
                   snd (foldl perform st ops) = snd st).
  { clear. induction ops as [|op ops IH]; intros st Hst; simpl; [reflexivity|].
    rewrite IH.
    - now apply perform_memory_only.
    - rewrite <- Hst. apply statePath_cacheFile, perform_cacheFile. }
  now rewrite Hgen.
Qed.

Lemma X10_memory_only_never_touches_disk_witness :
  fst (lifetime (Some "") 0 empty_disk []) = new_VideoCache (Some "") 0
  /\ snd (lifetime (Some "") 0 empty_disk
            [OpMarkAsSeen "a"; OpSave true 10; OpShutdown 20]) = empty_disk.
Proof.
  apply (X10_memory_only_never_touches_disk (Some "") 0 empty_disk
           [OpMarkAsSeen "a"; OpSave true 10; OpShutdown 20]).
  reflexivity.
Defined.

End PersistenceMore.

(* ===================================================================== *)
(** ** The worker loop keeps the quota                                   *)
(* ===================================================================== *)

Section WorkerLoop.

Import Discord Queue.

Lemma sleepTime_nonneg trace : (0 <= sleepTime trace)%Z.
Proof.
  induction trace as [|[k|ms] trace IH]; simpl; [lia|assumption|].
  destruct ms; simpl; lia.
Qed.

Lemma inWindow_app t l1 l2 : inWindow t (l1 ++ l2) = inWindow t l1 ++ inWindow t l2.
Proof. unfold inWindow. apply List.filter_app. Qed.

(** What is out of the window stays out of it later. *)
Lemma inWindow_later t t' l :
  (t <= t')%Z -> inWindow t' (inWindow t l) = inWindow t' l.
Proof.
  intros Hle. unfold inWindow, RATE_LIMIT_WINDOW_MS.
  induction l as [|x l IH]; simpl; [reflexivity|].
  destruct (Z.ltb_spec (t - x) 2000); simpl.
  - now rewrite IH.
  - rewrite IH. destruct (Z.ltb_spec (t' - x) 2000); [lia|reflexivity].
Qed.

Lemma recent_later t t' l : (t <= t')%Z -> recent t' l <= recent t l.
Proof.
  intros Hle. unfold recent. rewrite <- (inWindow_later t t' l Hle).
  unfold inWindow at 1. apply List.filter_length_le.
Qed.

Lemma recent_app t l1 l2 : recent t (l1 ++ l2) = recent t l1 + recent t l2.
Proof. unfold recent. now rewrite inWindow_app, length_app. Qed.

(** Once its oldest timestamp is out of the window, a chronological window
    counts one request less. *)
Lemma recent_without_oldest t o rest :
  (2000 <= t - o)%Z -> recent t (o :: rest) <= length rest.
Proof.
  intros Hold. unfold recent, inWindow, RATE_LIMIT_WINDOW_MS. simpl.
  destruct (Z.ltb_spec (t - o) 2000); [lia|].
  apply List.filter_length_le.
Qed.

Lemma successes_app l1 l2 : successes (l1 ++ l2) = successes l1 ++ successes l2.
Proof. unfold successes. apply omap_app. Qed.

(** One turn of the loop. *)
Lemma drain_cons clock e j rest :
  let now1 := (clock + idle j)%Z in
  let kept := inWindow now1 (requestTimestamps e) in
  let asked_wake :=
    if Nat.ltb (length kept) RATE_LIMIT_REQUESTS then (0%Z, now1)
    else (_calculateDelay (now1 + lag j) (mkWebhook (webhookUrl e) kept),
          (now1 + lag j
           + _calculateDelay (now1 + lag j) (mkWebhook (webhookUrl e) kept)
           + oversleep j)%Z) in
  let r := _sendWebhook (net j) 0 in
  let done := (asked_wake.2 + sleepTime (fst r) + latency j)%Z in
  let e2 := match snd r with
            | inr _ => recordRequest done (mkWebhook (webhookUrl e) kept)
            | inl _ => mkWebhook (webhookUrl e) kept
            end in
  drain clock e (j :: rest)
  = (mkSent j asked_wake.1 asked_wake.2 done (snd r) :: (drain done e2 rest).1.1,
     (drain done e2 rest).1.2, (drain done e2 rest).2).
Proof.
  cbv zeta. cbn [drain]. unfold _canMakeRequest.
  change (List.filter _ (requestTimestamps e))
    with (inWindow (clock + idle j) (requestTimestamps e)).
  destruct (Nat.ltb (length (inWindow (clock + idle j) (requestTimestamps e)))
                    RATE_LIMIT_REQUESTS); cbn [fst snd];
    match goal with
    | |- context [drain ?d ?e2 rest] => destruct (drain d e2 rest) as [[? ?] ?]
    end; reflexivity.
Qed.

(** The loop, from any state that respects the quota. [hist] is all that
    was recorded since the endpoint was built; the window of the endpoint
    may have forgotten the part of it that is out of date. *)
Lemma drain_quota queue : forall clock e hist,
  Forall timingOk queue ->
  StronglySorted Z.le (requestTimestamps e) ->
  Forall (fun t => (t <= clock)%Z) (requestTimestamps e) ->
  recent clock (requestTimestamps e) <= 5 ->
  (forall t, (clock <= t)%Z ->
     inWindow t (requestTimestamps e) = inWindow t hist) ->
  let log := (drain clock e queue).1.1 in
  let e' := (drain clock e queue).1.2 in
  let t' := (drain clock e queue).2 in
  (forall i s, log !! i = Some s ->
     recent (startedAt s) (hist ++ successes (take i log)) < 5
     /\ (0 <= delay s <= 2000)%Z)
  /\ (clock <= t')%Z
  /\ StronglySorted Z.le (requestTimestamps e')
  /\ Forall (fun t => (t <= t')%Z) (requestTimestamps e')
  /\ recent t' (requestTimestamps e') <= 5
  /\ (forall t, (t' <= t)%Z ->
        inWindow t (requestTimestamps e') = inWindow t (hist ++ successes log)).
Proof.
  induction queue as [|j rest IH]; intros clock e hist Hq Hs Hb Hc Hh.
  - simpl. split; [intros i s H; destruct i; discriminate H|].
    split; [lia|]. split; [assumption|]. split; [assumption|].
    split; [assumption|]. intros t Ht. rewrite app_nil_r. now apply Hh.
  - apply Forall_cons in Hq as [(Hi & Hl & Ho & Hla) Hq].
    set (now1 := (clock + idle j)%Z).
    set (kept := inWindow now1 (requestTimestamps e)).
    assert (Hkept_s : StronglySorted Z.le kept) by now apply StronglySorted_filter.
    assert (Hkept_c : length kept <= 5).
    { etransitivity; [|exact Hc]. apply (recent_later clock now1). lia. }
    assert (Hkept_h : forall t, (now1 <= t)%Z -> inWindow t kept = inWindow t hist).
    { intros t Ht. unfold kept. rewrite inWindow_later by assumption.
      apply Hh. lia. }
    (* the moment the send starts *)
    set (asked_wake :=
           if Nat.ltb (length kept) RATE_LIMIT_REQUESTS then (0%Z, now1)
           else (_calculateDelay (now1 + lag j) (mkWebhook (webhookUrl e) kept),
                 (now1 + lag j
                  + _calculateDelay (now1 + lag j) (mkWebhook (webhookUrl e) kept)
                  + oversleep j)%Z)).
    assert (Hkept_now : Forall (fun t => (t <= now1)%Z) kept).
    { apply Forall_filter_keep. eapply Forall_impl; [exact Hb|].
      simpl. intros t Ht. lia. }
    assert (Hwake : (now1 <= asked_wake.2)%Z /\ recent asked_wake.2 kept < 5
                    /\ (0 <= asked_wake.1 <= 2000)%Z).
    { subst asked_wake. unfold RATE_LIMIT_REQUESTS.
      destruct (Nat.ltb_spec (length kept) 5) as [Hlt|Hge]; simpl.
      - split; [lia|]. split; [|lia]. unfold recent.
        unfold kept at 1. rewrite inWindow_later by lia. exact Hlt.
      - unfold _calculateDelay, RATE_LIMIT_WINDOW_MS. simpl.
        destruct kept as [|o more] eqn:Hk; [simpl in Hge; lia|].
        assert (Hlen : length more <= 4) by (simpl in Hkept_c; lia).
        assert (Ho1 : (o <= now1)%Z) by (apply Forall_cons in Hkept_now; tauto).
        destruct (Z.leb_spec 2000 (now1 + lag j - o)).
        + split; [lia|]. split; [|lia].
          eapply Nat.le_lt_trans; [apply recent_without_oldest; lia|lia].
        + split; [lia|]. split; [|lia].
          eapply Nat.le_lt_trans; [apply recent_without_oldest; lia|lia]. }
    destruct Hwake as (Hwake_le & Hwake_c & Hasked).
    set (r := _sendWebhook (net j) 0).
    set (done := (asked_wake.2 + sleepTime (fst r) + latency j)%Z).
    assert (Hdone : (asked_wake.2 <= done)%Z)
      by (subst done; pose proof (sleepTime_nonneg (fst r)); lia).
    set (e2 := match snd r with
               | inr _ => recordRequest done (mkWebhook (webhookUrl e) kept)
               | inl _ => mkWebhook (webhookUrl e) kept
               end).
    set (new := match snd r with inr _ => [done] | inl _ => [] end).
    assert (He2 : requestTimestamps e2 = kept ++ new).
    { subst e2 new. destruct (snd r); simpl; [now rewrite app_nil_r|reflexivity]. }
    assert (Hkept_b : Forall (fun t => (t <= done)%Z) kept).
    { apply Forall_filter_keep. eapply Forall_impl; [exact Hb|].
      simpl. intros t Ht. lia. }
    assert (Hnew_b : Forall (fun t => (t <= done)%Z) new)
      by (subst new; destruct (snd r); repeat constructor; lia).
    specialize (IH done e2 (hist ++ new) Hq).
    destruct IH as (IH1 & IH2 & IH3 & IH4 & IH5 & IH6).
    + rewrite He2. apply StronglySorted_app_2; [|assumption|].
      * intros x1 x2 H1 H2. rewrite Forall_forall in Hkept_b.
        subst new. destruct (snd r); [inversion H2|].
        apply list_elem_of_singleton in H2. subst. now apply Hkept_b.
      * subst new. destruct (snd r); repeat constructor.
    + rewrite He2. apply Forall_app. now split.
    + rewrite He2, recent_app.
      assert (recent done kept <= 4).
      { pose proof (recent_later asked_wake.2 done kept Hdone). lia. }
      assert (recent done new <= 1).
      { subst new. unfold recent, inWindow. destruct (snd r); simpl; [lia|].
        destruct (_ <? _)%Z; simpl; lia. }
      lia.
    + intros t Ht. rewrite He2, !inWindow_app. f_equal. apply Hkept_h. lia.
    + (* the statement for the whole queue *)
      pose proof (drain_cons clock e j rest) as Hdrain. cbv zeta in Hdrain.
      change (drain clock e (j :: rest)
              = (mkSent j asked_wake.1 asked_wake.2 done (snd r)
                   :: (drain done e2 rest).1.1,
                 (drain done e2 rest).1.2, (drain done e2 rest).2)) in Hdrain.
      rewrite Hdrain. cbn [fst snd].
      set (first := mkSent j asked_wake.1 asked_wake.2 done (snd r)).
      assert (Hsucc : forall l, successes (first :: l) = new ++ successes l).
      { intros l. unfold successes. subst first new. cbn [omap list_omap result settledAt].
        now destruct (snd r). }
      split; [|split; [lia|split; [assumption|split; [assumption|split; [assumption|]]]]].
      * intros [|i] s Hat.
        -- injection Hat as <-. cbn [take firstn successes omap list_omap startedAt first].
           rewrite app_nil_r. split; [|exact Hasked].
           unfold recent. rewrite <- Hkept_h by assumption. exact Hwake_c.
        -- cbn [take firstn]. rewrite Hsucc, app_assoc. now apply IH1.
      * intros t Ht. rewrite Hsucc, app_assoc. now apply IH6.
Qed.

(** X11. The worker of an endpoint keeps the quota. Started on an idle
    endpoint whose window is chronological and holds at most 5 requests
    less than 2000 ms old, with a clock that never runs backwards, it calls
    [_sendWebhook] for an entry only at a moment when fewer than 5 of the
    requests recorded so far are less than 2000 ms old; it never asks for a
    rate-limit wait of more than 2000 ms; and it leaves the endpoint idle,
    its queue empty, in a state from which the same holds again. *)
Theorem X11_worker_keeps_quota (clock : Z) (w : Worker) :
  isProcessing w = false ->
  Forall timingOk (requestQueue w) ->
  withinQuota clock (endpoint w) ->
  let log := (_processQueue clock w).1.1 in
  let w' := (_processQueue clock w).1.2 in
  let t' := (_processQueue clock w).2 in
  (forall i s, log !! i = Some s ->
     recent (startedAt s)
            (requestTimestamps (endpoint w) ++ successes (take i log)) < 5
     /\ (0 <= delay s <= 2000)%Z)
  /\ withinQuota t' (endpoint w')
  /\ requestQueue w' = []
  /\ isProcessing w' = false.
Proof.
  intros Hidle Hq (Hs & Hb & Hc). cbv zeta. unfold _processQueue. rewrite Hidle.
  destruct (requestQueue w) as [|j rest] eqn:Hqueue; cbn [length Nat.eqb orb].
  - cbn [fst snd]. split; [intros i s H; destruct i; discriminate H|].
    split; [now repeat split|]. now split.
  - destruct (drain_quota (j :: rest) clock (endpoint w)
                (requestTimestamps (endpoint w)) Hq Hs Hb Hc
                ltac:(intros; reflexivity))
      as (H1 & H2 & H3 & H4 & H5 & _).
    destruct (drain clock (endpoint w) (j :: rest)) as [[log e'] t'].
    cbn [fst snd endpoint requestQueue isProcessing] in *.
    split; [exact H1|]. split; [now repeat split|]. now split.
Qed.

Lemma X11_worker_keeps_quota_witness :
  let w := mkWorker (new_DiscordWebhook "https://discord.test/hook")
                    (replicate 7 (mkJob va healthy 0 1 2 30)) false in
  let log := (_processQueue 0 w).1.1 in
  let w' := (_processQueue 0 w).1.2 in
  let t' := (_processQueue 0 w).2 in
  (forall i s, log !! i = Some s ->
     recent (startedAt s)
            (requestTimestamps (endpoint w) ++ successes (take i log)) < 5
     /\ (0 <= delay s <= 2000)%Z)
  /\ withinQuota t' (endpoint w')
  /\ requestQueue w' = []
  /\ isProcessing w' = false.
Proof.
  apply (X11_worker_keeps_quota 0
           (mkWorker (new_DiscordWebhook "https://discord.test/hook")
                     (replicate 7 (mkJob va healthy 0 1 2 30)) false)).
  - reflexivity.
  - simpl. repeat (constructor; [unfold timingOk; simpl; lia|]). constructor.
  - split; [constructor|]. split; [constructor|]. simpl. unfold recent. simpl. lia.
Defined.

Example sixth_queued_request_waits :
  map (fun s => (startedAt s, settledAt s))
      (_processQueue 0
         (mkWorker (new_DiscordWebhook "https://discord.test/hook")
                   (replicate 7 (mkJob va healthy 0 1 2 30)) false)).1.1
  = [(0, 30); (30, 60); (60, 90); (90, 120); (120, 150); (2032, 2062);
     (2062, 2092)]%Z.
Proof. vm_compute. reflexivity. Qed.

End WorkerLoop.

Section WorkerOrder.

Import Discord Queue.

Lemma calculateDelay_nonneg now e : (0 <= _calculateDelay now e)%Z.
Proof.
  unfold _calculateDelay, RATE_LIMIT_WINDOW_MS.
  destruct (requestTimestamps e) as [|o rest]; [lia|].
  destruct (Z.leb_spec 2000 (now - o)); lia.
Qed.

(** The loop serves the queue in order, one entry at a time. *)
Lemma drain_order queue : forall clock e,
  Forall timingOk queue ->
  let log := (drain clock e queue).1.1 in
  map job log = queue
  /\ (forall i s, log !! i = Some s ->
        result s = snd (_sendWebhook (net (job s)) 0)
        /\ (clock <= startedAt s)%Z /\ (startedAt s <= settledAt s)%Z
        /\ (settledAt s <= (drain clock e queue).2)%Z)
  /\ (forall i s1 s2, log !! i = Some s1 -> log !! (S i) = Some s2 ->
        (settledAt s1 <= startedAt s2)%Z)
  /\ (clock <= (drain clock e queue).2)%Z.
Proof.
  induction queue as [|j rest IH]; intros clock e Hq.
  - simpl. split; [reflexivity|].
    split; [intros i s H; destruct i; discriminate H|].
    split; [intros i s1 s2 H; destruct i; discriminate H|lia].
  - apply Forall_cons in Hq as [(Hi & Hl & Ho & Hla) Hq].
    pose proof (drain_cons clock e j rest) as Hd. cbv zeta in Hd.
    set (kept := inWindow (clock + idle j) (requestTimestamps e)) in Hd.
    set (aw := if Nat.ltb (length kept) RATE_LIMIT_REQUESTS then _ else _) in Hd.
    set (r := _sendWebhook (net j) 0) in Hd.
    set (done := (aw.2 + sleepTime r.1 + latency j)%Z) in Hd.
    set (e2 := match r.2 with inl _ => _ | inr _ => _ end) in Hd.
    assert (Haw : (clock <= aw.2)%Z).
    { subst aw. destruct (Nat.ltb (length kept) RATE_LIMIT_REQUESTS); simpl; [lia|].
      pose proof (calculateDelay_nonneg (clock + idle j + lag j)
                    (mkWebhook (webhookUrl e) kept)). lia. }
    assert (Hdone : (aw.2 <= done)%Z)
      by (subst done; pose proof (sleepTime_nonneg r.1); lia).
    destruct (IH done e2 Hq) as (IH1 & IH2 & IH3 & IH4).
    cbv zeta. rewrite Hd. cbn [fst snd].
    split; [cbn [map job]; now rewrite IH1|]. split; [|split; [|lia]].
    + intros [|i] s Hat.
      * injection Hat as <-. cbn [result job startedAt settledAt].
        split; [reflexivity|]. split; [lia|]. split; [lia|exact IH4].
      * destruct (IH2 i s Hat) as (Hr & Hs1 & Hs2 & Hs3).
        split; [assumption|]. split; [lia|]. split; assumption.
    + intros [|i] s1 s2 H1 H2.
      * injection H1 as <-. cbn [settledAt].
        destruct (IH2 0 s2 H2) as (_ & Hs & _). exact Hs.
      * exact (IH3 i s1 s2 H1 H2).
Qed.

(** X12. The worker serves the queue of its endpoint in order and one
    entry at a time: the entries served are the entries queued, in the same
    order; each settles as its own send does, whatever happened to the
    entries before it; and a send starts only after the previous one has
    settled. A worker that is already running is not started again. *)
Theorem X12_worker_serves_in_order (clock : Z) (w : Worker) :
  Forall timingOk (requestQueue w) ->
  (isProcessing w = true -> _processQueue clock w = ([], w, clock))
  /\ (isProcessing w = false ->
      let log := (_processQueue clock w).1.1 in
      map job log = requestQueue w
      /\ (forall i s, log !! i = Some s ->
            result s = snd (_sendWebhook (net (job s)) 0)
            /\ (clock <= startedAt s)%Z /\ (startedAt s <= settledAt s)%Z)
      /\ (forall i s1 s2, log !! i = Some s1 -> log !! (S i) = Some s2 ->
            (settledAt s1 <= startedAt s2)%Z)).
Proof.
  intros Hq. unfold _processQueue. split; [now intros ->|].
  intros ->. cbv zeta. cbn [orb].
  destruct (requestQueue w) as [|j rest] eqn:Hqueue; cbn [length Nat.eqb].
  - cbn [fst snd map]. split; [reflexivity|].
    split; [intros i s H; destruct i; discriminate H|].
    intros i s1 s2 H; destruct i; discriminate H.
  - destruct (drain_order (j :: rest) clock (endpoint w) Hq) as (H1 & H2 & H3 & _).
    destruct (drain clock (endpoint w) (j :: rest)) as [[log e'] t'].
    cbn [fst snd] in *. split; [exact H1|]. split; [|exact H3].
    intros i s Hat. destruct (H2 i s Hat) as (Ha & Hb & Hc & _). now repeat split.
Qed.

Lemma X12_worker_serves_in_order_witness :
  let w := mkWorker (new_DiscordWebhook "https://discord.test/hook")
                    [mkJob va unreachable_host 0 0 0 5; mkJob vb healthy 1 0 0 7]
                    false in
  (isProcessing w = true -> _processQueue 0 w = ([], w, 0%Z))
  /\ (isProcessing w = false ->
      let log := (_processQueue 0 w).1.1 in
      map job log = requestQueue w
      /\ (forall i s, log !! i = Some s ->
            result s = snd (_sendWebhook (net (job s)) 0)
            /\ (0 <= startedAt s)%Z /\ (startedAt s <= settledAt s)%Z)
      /\ (forall i s1 s2, log !! i = Some s1 -> log !! (S i) = Some s2 ->
            (settledAt s1 <= startedAt s2)%Z)).
Proof.
  apply (X12_worker_serves_in_order 0
           (mkWorker (new_DiscordWebhook "https://discord.test/hook")
                     [mkJob va unreachable_host 0 0 0 5; mkJob vb healthy 1 0 0 7]
                     false)).
  simpl. repeat (constructor; [unfold timingOk; simpl; lia|]). constructor.
Defined.

(** Posting one notification on an idle endpoint is one turn of the loop. *)
Lemma postVideoNotification_drain clock e j :
  postVideoNotification clock e j
  = ((drain clock e [j]).1.1, mkWorker (drain clock e [j]).1.2 [] false,
     (drain clock e [j]).2).
Proof.
  unfold postVideoNotification, _processQueue.
  cbn [isProcessing requestQueue endpoint length Nat.eqb orb].
  now destruct (drain clock e [j]) as [[? ?] ?].
Qed.

(** X13. Posting a batch on one endpoint, each notification awaited before
    the next is queued, does what one run of the worker does on the queue of
    the whole batch: the same sends at the same times, the same final window
    and clock. The result has one entry for each video, in order, with the
    identifier of the video and whether its send succeeded. *)
Theorem X13_batch_is_one_queue (clock : Z) (e : DiscordWebhook) (jobs : list Job) :
  let results := (postVideoNotifications clock e jobs).1.1.1 in
  let log := (postVideoNotifications clock e jobs).1.1.2 in
  let e' := (postVideoNotifications clock e jobs).1.2 in
  let t' := (postVideoNotifications clock e jobs).2 in
  (log, e', t') = drain clock e jobs
  /\ results
     = map (fun j => (Cache.id (video j),
                      match snd (_sendWebhook (net j) 0) with
                      | inr _ => true
                      | inl _ => false
                      end)) jobs.
Proof.
  cbv zeta. revert clock e.
  induction jobs as [|j rest IH]; intros clock e; [split; reflexivity|].
  cbn [postVideoNotifications]. rewrite postVideoNotification_drain.
  cbn [endpoint].
  pose proof (drain_cons clock e j []) as H1. cbv zeta in H1.
  pose proof (drain_cons clock e j rest) as Hd. cbv zeta in Hd.
  set (kept := inWindow (clock + idle j) (requestTimestamps e)) in *.
  set (aw := if Nat.ltb (length kept) RATE_LIMIT_REQUESTS then _ else _) in *.
  set (r := _sendWebhook (net j) 0) in *.
  set (done := (aw.2 + sleepTime r.1 + latency j)%Z) in *.
  set (e2 := match r.2 with inl _ => _ | inr _ => _ end) in *.
  change (drain done e2 []) with (@nil Sent, e2, done) in H1.
  cbn [fst snd] in H1. rewrite H1, Hd. cbn [fst snd].
  destruct (IH done e2) as [IHa IHb].
  destruct (postVideoNotifications done e2 rest) as [[[results log] e'] t'].
  cbn [fst snd] in *. split.
  - cbn [app]. rewrite <- IHa. reflexivity.
  - cbn [map result]. now rewrite IHb.
Qed.

End WorkerOrder.

Section SendMore.

Import Discord Queue.

Lemma sleepTime_sleeps trace :
  sleepTime trace = foldr (fun d acc => (timerDelay d + acc)%Z) 0%Z (sleeps trace).
Proof.
  unfold sleeps. induction trace as [|[k|ms] trace IH]; simpl; [reflexivity|assumption|].
  now rewrite IH.
Qed.

(** Without a Retry-After header every wait is the exponential backoff. *)
Lemma retried_backoff o k d :
  (forall r, o = Resolves r -> status r = 429%Z -> truthy (retryAfter r) = false) ->
  retried o k d -> d = Num (1000 * 2 ^ Z.of_nat k).
Proof.
  intros Hno. destruct o as [e|r]; simpl; [tauto|]. intros [_ ->].
  destruct (Z.eq_dec (status r) 429%Z) as [H429|Hne]; [|now apply not_429_cases].
  specialize (Hno r eq_refl H429). rewrite H429.
  destruct (retryAfter r) as [[|a rest]|]; [reflexivity|discriminate Hno|reflexivity].
Qed.

(** X14. When no 429 response carries a Retry-After header, the waits of a
    send are the first of 1000, 2000 and 4000 ms, in this order, one for
    each retry made: a send never spends more than 7000 ms waiting between
    its attempts. *)
Theorem X14_backoff_is_bounded (net : nat -> FetchOutcome) :
  (forall k r, net k = Resolves r -> status r = 429%Z ->
     truthy (retryAfter r) = false) ->
  let trace := fst (_sendWebhook net 0) in
  sleeps trace = take (length (sleeps trace)) [Num 1000; Num 2000; Num 4000]
  /\ (sleepTime trace <= 7000)%Z.
Proof.
  intros Hno. cbv zeta.
  destruct (sendWebhook_from net 3 0 eq_refl) as (Hn & _ & Hs & _).
  cbv zeta in Hn, Hs. rewrite sleepTime_sleeps.
  assert (Hd : forall i d, sleeps (_sendWebhook net 0).1 !! i = Some d ->
                 d = Num (1000 * 2 ^ Z.of_nat i)).
  { intros i d Hi. apply (retried_backoff (net i) i d).
    - intros r Hr. now apply (Hno i).
    - exact (Hs i d Hi). }
  destruct (sleeps (_sendWebhook net 0).1) as [|d0 [|d1 [|d2 [|d3 more]]]];
    simpl in Hn; try lia.
  - split; [reflexivity|simpl; lia].
  - rewrite (Hd 0 d0 eq_refl). split; [reflexivity|simpl; lia].
  - rewrite (Hd 0 d0 eq_refl), (Hd 1 d1 eq_refl). split; [reflexivity|simpl; lia].
  - rewrite (Hd 0 d0 eq_refl), (Hd 1 d1 eq_refl), (Hd 2 d2 eq_refl).
    split; [reflexivity|simpl; lia].
Qed.

Lemma X14_backoff_is_bounded_witness :
  let trace := fst (_sendWebhook unreachable_host 0) in
  sleeps trace = take (length (sleeps trace)) [Num 1000; Num 2000; Num 4000]
  /\ (sleepTime trace <= 7000)%Z.
Proof.
  apply (X14_backoff_is_bounded unreachable_host).
  intros k r H. discriminate H.
Defined.



End SendMore.

Section FanOutMore.

Import Discord Queue.

Lemma Multi_postVideoNotification_imap webhooks :
  Multi_postVideoNotification webhooks = imap outcomeOf webhooks.
Proof.
  unfold Multi_postVideoNotification. rewrite collectResults_imap.
  apply list_eq. intros i. rewrite !list_lookup_imap.
  destruct (webhooks !! i) as [net|]; simpl; [|reflexivity].
  now rewrite postToWebhook_fulfilled.
Qed.

Lemma foldl_push_map {A B} (f : A -> B) l : forall acc,
  foldl (fun results x => results ++ [f x]) acc l = acc ++ map f l.
Proof.
  induction l as [|x l IH]; intros acc; simpl; [now rewrite app_nil_r|].
  now rewrite IH, <- app_assoc.
Qed.

(** X16. Posting a batch to all endpoints gives one entry for each video,
    in the order of the batch, with the identifier of the video; the entry
    holds one outcome for each endpoint, at the position and with the index
    of the endpoint, which says whether the send of that video to that
    endpoint succeeded. *)
Theorem X16_multi_batch
    (webhooks : list (Cache.Video -> nat -> FetchOutcome))
    (videos : list Cache.Video) :
  let all := Multi_postVideoNotifications webhooks videos in
  map fst all = map Cache.id videos
  /\ forall i v, videos !! i = Some v ->
       exists results,
         all !! i = Some (Cache.id v, results)
         /\ length results = length webhooks
         /\ forall k w, webhooks !! k = Some w ->
              results !! k = Some (outcomeOf k (w v)).
Proof.
  cbv zeta. unfold Multi_postVideoNotifications.
  rewrite (foldl_push_map
             (fun v => (Cache.id v,
                        Multi_postVideoNotification (map (fun w => w v) webhooks)))).
  cbn [app]. split.
  - rewrite map_map. reflexivity.
  - intros i v Hi. eexists. split.
    + rewrite list_lookup_fmap, Hi. reflexivity.
    + rewrite Multi_postVideoNotification_imap. split.
      * now rewrite length_imap, length_map.
      * intros k w Hk. rewrite list_lookup_imap, list_lookup_fmap, Hk. reflexivity.
Qed.

Lemma testWebhooks_imap webhooks : forall (f : nat -> nat) acc,
  foldl (fun results '(index, res) =>
           match res with
           | Fulfilled value => results ++ [value]
           | Rejected reason =>
               results ++ [mkResult (index + 1) false
                                    (Some (reasonMessage reason))]
           end)
        acc
        (imap (fun i net => (f i, Fulfilled (mkResult (f i + 1) (testWebhook net).1
                                                      (testWebhook net).2)))
              webhooks)
  = acc ++ imap (fun i net => mkResult (f i + 1) (testWebhook net).1
                                       (testWebhook net).2) webhooks.
Proof.
  induction webhooks as [|net l IH]; intros f acc.
  - simpl. now rewrite app_nil_r.
  - rewrite !imap_cons. cbn [foldl].
    rewrite (imap_ext _ (fun i net => (f (S i), Fulfilled (mkResult (f (S i) + 1)
               (testWebhook net).1 (testWebhook net).2))) l) by reflexivity.
    rewrite (imap_ext (_ ∘ S) (fun i net => mkResult (f (S i) + 1)
               (testWebhook net).1 (testWebhook net).2) l) by reflexivity.
    rewrite (IH (fun i => f (S i))). now rewrite <- app_assoc.
Qed.

(** X17. The connectivity test of all endpoints gives one outcome for each
    endpoint, in order; the outcome of the endpoint at position [i] carries
    the index [i + 1], and it succeeds exactly when the test send, made with
    the same retries as any send, resolves. *)
Theorem X17_testWebhooks (webhooks : list (nat -> FetchOutcome)) :
  let results := testWebhooks webhooks in
  length results = length webhooks
  /\ forall i net, webhooks !! i = Some net ->
       exists r, results !! i = Some r
                 /\ webhookIndex r = i + 1
                 /\ (success r = true <-> exists v, snd (_sendWebhook net 0) = inr v)
                 /\ (forall e, snd (_sendWebhook net 0) = inl e ->
                       error r = Some (message e)).
Proof.
  cbv zeta. unfold testWebhooks.
  assert (Heq : testWebhooks webhooks
                = imap (fun i net => mkResult (i + 1) (testWebhook net).1
                                              (testWebhook net).2) webhooks).
  { unfold testWebhooks.
    etransitivity; [|exact (testWebhooks_imap webhooks (fun i => i) [])].
    f_equal. apply list_eq. intros i. rewrite !list_lookup_imap.
    destruct (webhooks !! i) as [net|]; simpl; [|reflexivity].
    now destruct (testWebhook net). }
  unfold testWebhooks in Heq. rewrite Heq. split; [apply length_imap|].
  intros i net Hi. eexists. split; [rewrite list_lookup_imap, Hi; reflexivity|].
  cbn [webhookIndex success error]. split; [reflexivity|].
  unfold testWebhook. destruct (snd (_sendWebhook net 0)) as [e|v]; simpl.
  - split; [|intros e' [= <-]; reflexivity].
    split; [discriminate|intros [v Hv]; discriminate Hv].
  - split; [|intros e' He; discriminate He].
    split; [intros _; now exists v|reflexivity].
Qed.

End FanOutMore.

(* ===================================================================== *)
(** ** Passes, cycles and shutdown                                       *)
(* ===================================================================== *)

Section PassMore.

Import Cache.

Lemma deliveryList_nil config c : deliveryList config [] c = [].
Proof.
  unfold deliveryList, processVideos. simpl.
  destruct (isInitialRun c && _); [reflexivity|].
  now destruct (String.eqb _ _).
Qed.

Lemma processedCache_nil config c : processedCache config [] c = c.
Proof.
  unfold processedCache, processVideos. simpl.
  destruct (isInitialRun c && _); [now destruct c|].
  destruct (String.eqb _ _); now destruct c.
Qed.

(** A pass with nothing to deliver stops before the dispatcher and the
    save. *)
Lemma pass_without_delivery config dw now videos c fs :
  deliveryList config videos c = [] ->
  Index.processVideos config dw now videos c fs
  = Index.mkPass (length videos) 0 None (processedCache config videos c) fs.
Proof.
  unfold deliveryList, processedCache, Index.processVideos. intros Hnil.
  destruct videos as [|v0 videos].
  - fold (processedCache config [] c). now rewrite processedCache_nil.
  - destruct (processVideos (v0 :: videos) (isInitialRun c) (Index.modeOf config) c)
      as [newVideos c1]. simpl in Hnil. subst newVideos. reflexivity.
Qed.

(** X18. A pass that has nothing to deliver leaves the disk and the time
    of the last save as they are, also when it changed the cache (as the
    first pass in production mode does, which marks every video seen); the
    dispatcher is not called and nothing is counted as posted. *)
Theorem X18_quiet_pass_never_saves
    (config : Index.Config)
    (dw : option (list Video -> list (string * bool)))
    (now : Z) (videos : list Video) (c : VideoCache) (fs : FS) :
  deliveryList config videos c = [] ->
  let p := Index.processVideos config dw now videos c fs in
  Index.fs p = fs
  /\ Index.cache p = processedCache config videos c
  /\ lastSaveTime (Index.cache p) = lastSaveTime c
  /\ Index.dispatched p = None
  /\ Index.posted p = 0
  /\ Index.processed p = length videos.
Proof.
  intros Hnil. cbv zeta. rewrite pass_without_delivery by assumption.
  cbn [Index.fs Index.cache Index.dispatched Index.posted Index.processed].
  repeat split. unfold processedCache. apply processVideos_file.
Qed.

Lemma X18_quiet_pass_never_saves_witness :
  let c := mkCache (Some "cache.json") [] ∅ 0 in
  let p := Index.processVideos production (Some allPosted) 60000 [va; vb] c
             empty_disk in
  Index.fs p = empty_disk
  /\ Index.cache p = processedCache production [va; vb] c
  /\ lastSaveTime (Index.cache p) = lastSaveTime c
  /\ Index.dispatched p = None
  /\ Index.posted p = 0
  /\ Index.processed p = length [va; vb].
Proof.
  apply (X18_quiet_pass_never_saves production (Some allPosted) 60000 [va; vb]
           (mkCache (Some "cache.json") [] ∅ 0) empty_disk).
  reflexivity.
Defined.

Lemma filter_ext_elem {A} (f g : A -> bool) l :
  (forall x, f x = g x) -> List.filter f l = List.filter g l.
Proof. intros H. apply List.filter_ext. exact H. Qed.

Lemma Set_has_same x s s' :
  (forall y, y ∈ s <-> y ∈ s') -> JS.Set_has x s = JS.Set_has x s'.
Proof.
  intros H. destruct (JS.Set_has x s') eqn:Hs'.
  - apply Set_has_true. apply H. now apply Set_has_true.
  - apply Set_has_false. rewrite H. now apply Set_has_false.
Qed.

(** X19. The first pass of a production run on an empty cache delivers
    nothing and writes nothing, and it ends the bootstrap: in the pass that
    follows, in production mode, the delivery list is the list of the
    candidate videos whose identifier was not among the candidates of the
    first pass, in their order. *)
Theorem X19_first_pass_then_second
    (config : Index.Config)
    (dw : option (list Video -> list (string * bool)))
    (now : Z) (videos videos2 : list Video) (c : VideoCache) (fs : FS) :
  Index.testMode config = false ->
  Index.developmentMode config = false ->
  isInitialRun c = true ->
  videos <> [] ->
  let p := Index.processVideos config dw now videos c fs in
  Index.dispatched p = None
  /\ Index.fs p = fs
  /\ isInitialRun (Index.cache p) = false
  /\ deliveryList config videos2 (Index.cache p)
     = List.filter (fun v => negb (JS.Set_has (id v) (map id videos))) videos2.
Proof.
  intros Htest Hdev Hboot Hne. cbv zeta.
  assert (Hmode : Index.modeOf config = "production")
    by (unfold Index.modeOf; now rewrite Htest, Hdev).
  assert (Hquiet : deliveryList config videos c = []).
  { unfold deliveryList. rewrite Hmode, Hboot.
    now rewrite processVideos_bootstrapQuiet. }
  rewrite pass_without_delivery by assumption.
  cbn [Index.fs Index.cache Index.dispatched].
  split; [reflexivity|]. split; [reflexivity|].
  assert (Hseen : forall x, x ∈ seenVideoIds (processedCache config videos c)
                            <-> x ∈ map id videos).
  { intros x. unfold processedCache. rewrite Hmode, Hboot.
    rewrite processVideos_bootstrapQuiet by reflexivity. simpl.
    rewrite elem_of_markAllSeen, applySourceTimestamps_seen.
    unfold isInitialRun in Hboot. apply Nat.eqb_eq in Hboot.
    destruct (seenVideoIds c); [|discriminate].
    rewrite list_elem_of_fmap. split.
    - intros [H|(v & Hv & <-)]; [inversion H|]. now exists v.
    - intros (v & -> & Hv). right. now exists v. }
  assert (Hnot : isInitialRun (processedCache config videos c) = false).
  { unfold isInitialRun. apply Nat.eqb_neq. intros Hlen.
    destruct videos as [|v0 rest]; [contradiction|].
    assert (Hin : id v0 ∈ seenVideoIds (processedCache config (v0 :: rest) c))
      by (apply Hseen; simpl; apply elem_of_cons; now left).
    destruct (seenVideoIds (processedCache config (v0 :: rest) c));
      [inversion Hin|discriminate]. }
  split; [exact Hnot|].
  unfold deliveryList. rewrite Hmode, Hnot.
  rewrite processVideos_full by reflexivity. cbn [fst].
  unfold filterNewVideos, hasBeenSeen. apply filter_ext_elem. intros v.
  f_equal. apply Set_has_same. intros y.
  rewrite applySourceTimestamps_seen. apply Hseen.
Qed.

Lemma X19_first_pass_then_second_witness :
  let c := mkCache (Some "cache.json") [] ∅ 0 in
  let p := Index.processVideos production (Some allPosted) 60000 [va; vb] c
             empty_disk in
  Index.dispatched p = None
  /\ Index.fs p = empty_disk
  /\ isInitialRun (Index.cache p) = false
  /\ deliveryList production [vc; vb] (Index.cache p)
     = List.filter (fun v => negb (JS.Set_has (id v) (map id [va; vb]))) [vc; vb].
Proof.
  apply (X19_first_pass_then_second production (Some allPosted) 60000
           [va; vb] [vc; vb] (mkCache (Some "cache.json") [] ∅ 0) empty_disk).
  - reflexivity.
  - reflexivity.
  - reflexivity.
  - discriminate.
Defined.

Lemma postVideoNotifications_acc net videos : forall acc,
  foldl (fun results video =>
           match Discord.postVideoNotification (net video) with
           | inr _ => results ++ [(id video, true)]
           | inl _ => results ++ [(id video, false)]
           end) acc videos
  = acc ++ map (fun v => (id v,
                          match Discord.postVideoNotification (net v) with
                          | inr _ => true
                          | inl _ => false
                          end)) videos.
Proof.
  induction videos as [|v videos IH]; intros acc; simpl; [now rewrite app_nil_r|].
  rewrite IH. destruct (Discord.postVideoNotification (net v));
    now rewrite <- app_assoc.
Qed.

(** The dispatcher of one endpoint reports on each video, in order. *)
Lemma postVideoNotifications_map net videos :
  Discord.postVideoNotifications net videos
  = map (fun v => (id v,
                   match Discord.postVideoNotification (net v) with
                   | inr _ => true
                   | inl _ => false
                   end)) videos.
Proof. exact (postVideoNotifications_acc net videos []). Qed.

Lemma countSuccess_le results : Index.countSuccess results <= length results.
Proof. unfold Index.countSuccess. apply List.filter_length_le. Qed.

Lemma countSuccess_map (b : Video -> bool) l :
  Index.countSuccess (map (fun v => (id v, b v)) l) = length (List.filter b l).
Proof.
  unfold Index.countSuccess.
  induction l as [|v l IH]; simpl; [reflexivity|].
  destruct (b v); simpl; now rewrite IH.
Qed.

(** X20. The counts of a pass, with the dispatcher of one endpoint: the
    videos posted are counted among the videos delivered, which are counted
    among the videos processed; when the dispatcher is called, the number
    posted is the number of delivered videos whose send resolves; in test
    mode the dispatcher is not called and nothing is counted as posted. *)
Theorem X20_pass_counts
    (config : Index.Config) (net : Video -> nat -> Discord.FetchOutcome)
    (now : Z) (videos : list Video) (c : VideoCache) (fs : FS) :
  let p := Index.processVideos config
             (Some (Discord.postVideoNotifications net)) now videos c fs in
  Index.processed p = length videos
  /\ Index.posted p <= length (deliveryList config videos c)
  /\ length (deliveryList config videos c) <= Index.processed p
  /\ (forall delivered, Index.dispatched p = Some delivered ->
        Index.testMode config = false
        /\ delivered = deliveryList config videos c
        /\ Index.posted p
           = length (List.filter
                       (fun v => match Discord.postVideoNotification (net v) with
                                 | inr _ => true
                                 | inl _ => false
                                 end) delivered))
  /\ (Index.testMode config = true ->
        Index.dispatched p = None /\ Index.posted p = 0).
Proof.
  cbv zeta.
  assert (Hsub : length (deliveryList config videos c) <= length videos).
  { unfold deliveryList.
    destruct (policyOf (isInitialRun c) (Index.modeOf config)) eqn:Hp.
    - rewrite processVideos_bootstrapQuiet by assumption. simpl. lia.
    - rewrite processVideos_sampled by assumption. cbn [fst].
      rewrite onePerSource_fold.
      destruct (sample_fold (filterNewVideos videos
                  (applySourceTimestamps (collectSourceTimestamps videos) c))
                  ([], []) ltac:(split; [intros k; simpl; tauto|constructor]))
        as (_ & (ext & Hext & Hsubl) & _).
      simpl in Hext. rewrite Hext.
      etransitivity; [apply sublist_length, Hsubl|].
      apply List.filter_length_le.
    - rewrite processVideos_full by assumption. cbn [fst].
      apply List.filter_length_le. }
  destruct (deliveryList config videos c) as [|d0 ds] eqn:Hdel.
  - rewrite pass_without_delivery by assumption.
    cbn [Index.processed Index.posted Index.dispatched length].
    split; [reflexivity|]. split; [lia|]. split; [lia|].
    split; [intros delivered H; discriminate H|]. now split.
  - unfold Index.processVideos, deliveryList in *.
    destruct videos as [|v0 videos].
    { pose proof (deliveryList_nil config c) as Hn. unfold deliveryList in Hn.
      rewrite Hn in Hdel. discriminate Hdel. }
    destruct (processVideos (v0 :: videos) (isInitialRun c) (Index.modeOf config) c)
      as [newVideos c1]. cbn [fst] in Hdel. subst newVideos.
    destruct (save false now c1 fs) as [c2 fs2].
    destruct (Index.testMode config);
      cbn [Index.processed Index.posted Index.dispatched].
    + split; [reflexivity|]. split; [lia|]. split; [exact Hsub|].
      split; [intros delivered H; discriminate H|]. now split.
    + rewrite postVideoNotifications_map, countSuccess_map.
      split; [reflexivity|].
      split; [apply List.filter_length_le|].
      split; [exact Hsub|]. split; [|intros H; discriminate H].
      intros delivered [= <-]. now repeat split.
Qed.

End PassMore.

Section CycleFacts.

Import Cache Cycle.

Lemma markAllSeen_NoDup vs : forall c,
  NoDup (seenVideoIds c) -> NoDup (seenVideoIds (markAllSeen vs c)).
Proof.
  unfold markAllSeen.
  induction vs as [|v vs IH]; intros c Hnd; simpl; [assumption|].
  apply IH. simpl. now apply Set_add_NoDup.
Qed.

Lemma processVideos_NoDup vs flag mode c :
  NoDup (seenVideoIds c) ->
  NoDup (seenVideoIds (snd (processVideos vs flag mode c))).
Proof.
  intros Hnd. unfold processVideos.
  destruct (flag && String.eqb mode "production");
    [|destruct (String.eqb mode "development")]; simpl;
    apply markAllSeen_NoDup; now rewrite applySourceTimestamps_seen.
Qed.

(** A pass changes the seen set as [processVideos] of the cache does. *)
Lemma pass_seen config dw now videos c fs :
  seenVideoIds (Index.cache (Index.processVideos config dw now videos c fs))
  = seenVideoIds (processedCache config videos c).
Proof.
  destruct (deliveryList config videos c) as [|d ds] eqn:Hdel.
  - now rewrite pass_without_delivery.
  - destruct (pass_with_delivery config dw now videos c fs) as (Hc & _).
    { rewrite Hdel. discriminate. }
    rewrite Hc. apply save_seen.
Qed.

Lemma cleanup_NoDup maxEntries c :
  NoDup (seenVideoIds c) -> NoDup (seenVideoIds (cleanup maxEntries c)).
Proof.
  intros Hnd. unfold cleanup.
  destruct (Z.of_nat (length (seenVideoIds c)) <=? maxEntries)%Z; [assumption|].
  apply NoDup_Set_from.
Qed.

Lemma Set_from_length array : length (JS.Set_from array) <= length array.
Proof.
  unfold JS.Set_from.
  assert (H : forall acc, length (foldl (fun s y => JS.Set_add y s) acc array)
                          <= length acc + length array).
  { induction array as [|a array IH]; intros acc; simpl; [lia|].
    etransitivity; [apply IH|]. unfold JS.Set_add.
    destruct (JS.Set_has a acc); [lia|]. rewrite length_app. simpl. lia. }
  exact (H []).
Qed.

(** After [cleanup] with a positive bound the seen set is within it. *)
Lemma cleanup_size maxEntries c :
  (0 < maxEntries)%Z ->
  (Z.of_nat (length (seenVideoIds (cleanup maxEntries c))) <= maxEntries)%Z.
Proof.
  intros Hpos. unfold cleanup.
  destruct (Z.leb_spec (Z.of_nat (length (seenVideoIds c))) maxEntries) as [Hle|Hgt];
    [exact Hle|].
  simpl. rewrite slice_from_last by (rewrite ?sort_length; lia).
  pose proof (Set_from_length
                (drop (length (JS.sort (seenVideoIds c)) - Z.to_nat maxEntries)
                      (JS.sort (seenVideoIds c)))) as Hl.
  rewrite length_drop in Hl. lia.
Qed.

(** X21. A polling cycle that is not stopped by the shutdown counts
    itself, also when the fetch fails, in which case it changes nothing
    else. The seen set is cleaned in the cycles whose number is a multiple
    of 50, after which it holds at most 10000 identifiers; in every other
    cycle nothing leaves the seen set. *)
Theorem X21_polling_cycle (fetched : option (list Video)) (now : Z) (app : App) :
  isShuttingDown app = false ->
  let app' := performPollingCycle fetched now app in
  pollingCycleCount app' = S (pollingCycleCount app)
  /\ isShuttingDown app' = false
  /\ (fetched = None ->
      videoCache app' = videoCache app /\ disk app' = disk app)
  /\ (S (pollingCycleCount app) mod 50 = 0 -> fetched <> None ->
      (Z.of_nat (length (seenVideoIds (videoCache app'))) <= 10000)%Z)
  /\ (S (pollingCycleCount app) mod 50 <> 0 ->
      forall x, x ∈ seenVideoIds (videoCache app) ->
                x ∈ seenVideoIds (videoCache app'))
  /\ (NoDup (seenVideoIds (videoCache app)) ->
      NoDup (seenVideoIds (videoCache app'))).
Proof.
  intros Hrun. cbv zeta. unfold performPollingCycle. rewrite Hrun.
  destruct fetched as [videos|];
    cbn [pollingCycleCount isShuttingDown videoCache disk].
  - split; [reflexivity|]. split; [reflexivity|].
    split; [intros H; discriminate H|]. split; [|split].
    + intros Hmod _. apply Nat.eqb_eq in Hmod. rewrite Hmod.
      apply cleanup_size. lia.
    + intros Hmod x Hx. apply Nat.eqb_neq in Hmod. rewrite Hmod.
      rewrite pass_seen. unfold processedCache.
      eapply extends_elem; [apply processVideos_extends|assumption].
    + intros Hnd.
      assert (Hp : NoDup (seenVideoIds
                    (Index.cache (Index.processVideos (config app)
                       (discordWebhook app) now videos (videoCache app)
                       (disk app))))).
      { rewrite pass_seen. now apply processVideos_NoDup. }
      destruct (Nat.eqb _ 0); [now apply cleanup_NoDup|assumption].
  - split; [reflexivity|]. split; [reflexivity|].
    split; [now split|]. split; [intros _ H; contradiction|]. now split.
Qed.

Lemma X21_polling_cycle_witness :
  let app := mkApp production (Some allPosted) false 49 running_cache empty_disk in
  let app' := performPollingCycle (Some [va]) 90000 app in
  pollingCycleCount app' = S (pollingCycleCount app)
  /\ isShuttingDown app' = false
  /\ (Some [va] = None ->
      videoCache app' = videoCache app /\ disk app' = disk app)
  /\ (S (pollingCycleCount app) mod 50 = 0 -> Some [va] <> None ->
      (Z.of_nat (length (seenVideoIds (videoCache app'))) <= 10000)%Z)
  /\ (S (pollingCycleCount app) mod 50 <> 0 ->
      forall x, x ∈ seenVideoIds (videoCache app) ->
                x ∈ seenVideoIds (videoCache app'))
  /\ (NoDup (seenVideoIds (videoCache app)) ->
      NoDup (seenVideoIds (videoCache app'))).
Proof.
  apply (X21_polling_cycle (Some [va]) 90000
           (mkApp production (Some allPosted) false 49 running_cache empty_disk)).
  reflexivity.
Defined.



End CycleFacts.

(* ===================================================================== *)
(** ** The videos of all sources, and the logger                         *)
(* ===================================================================== *)

Section YoutubeFacts.

Import Cache.

Variable toLowerCase : string -> string.









End YoutubeFacts.

Section LoggerFacts.

Variable toUpperCase : string -> string.

(** X25. Whatever level it is built with, the logger never lets a message
    of level DEBUG through, and always lets one of level ERROR through:
    the level DEBUG, whose number is 0, is replaced by INFO like an unknown
    level. Messages of level INFO pass unless the level is WARN or ERROR. *)
Theorem X25_debug_is_never_logged (level : string) :
  let logger := Logger.new_Logger toUpperCase level in
  Logger._shouldLog logger "DEBUG" = false
  /\ Logger._shouldLog logger "ERROR" = true
  /\ (toUpperCase level = "DEBUG" -> Logger.level logger = 1%Z)
  /\ (Logger._shouldLog logger "INFO" = true
      <-> toUpperCase level <> "WARN" /\ toUpperCase level <> "ERROR").
Proof.
  cbv zeta. unfold Logger.new_Logger, Logger._shouldLog, Logger.LOG_LEVELS.
  cbn [Logger.level String.eqb Ascii.eqb Bool.eqb]. cbv iota.
  destruct (String.eqb_spec (toUpperCase level) "DEBUG") as [->|H1];
    [|destruct (String.eqb_spec (toUpperCase level) "INFO") as [->|H2];
      [|destruct (String.eqb_spec (toUpperCase level) "WARN") as [->|H3];
        [|destruct (String.eqb_spec (toUpperCase level) "ERROR") as [->|H4]]]];
    cbn [Logger.level]; change (1 <=? 1)%Z with true; change (2 <=? 1)%Z with false;
    change (3 <=? 1)%Z with false;
    (split; [reflexivity|]); (split; [reflexivity|]);
    (split; [intros; congruence|]);
    (split; [intros; split; congruence|intros [? ?]; congruence]).
Qed.

End LoggerFacts.

(* ===================================================================== *)
(** ** The configuration                                                 *)
(* ===================================================================== *)

Section ConfigurationFacts.

Import Configuration.

Variable trim : string -> string.
Variable toLowerCase : string -> string.
Variable toUpperCase : string -> string.
Variable URL : string -> string + (string * string).

Lemma mapThrowing_Return {A B} (f : A -> Result B) (P : B -> Prop) l l' :
  (forall a b, f a = Return b -> P b) ->
  mapThrowing f l = Return l' -> Forall P l' /\ length l' = length l.
Proof.
  intros Hf. revert l'. induction l as [|a l IH]; intros l' H; simpl in H.
  - injection H as <-. now split.
  - destruct (f a) as [b|] eqn:Hb; [|discriminate]. simpl in H.
    destruct (mapThrowing f l) as [bs|] eqn:Hbs; [|discriminate]. simpl in H.
    injection H as <-. destruct (IH bs eq_refl) as [HP Hlen].
    split; [constructor; eauto|simpl; now rewrite Hlen].
Qed.

Lemma parseCommaSeparated_nonempty value :
  Forall (fun item => item <> "") (parseCommaSeparated trim value).
Proof.
  unfold parseCommaSeparated. destruct value as [value|]; [|constructor].
  destruct (_ || _); [constructor|].
  apply Forall_forall. intros item Hin. apply list_elem_of_In, filter_In in Hin as [_ Hlen].
  intros ->. discriminate.
Qed.

(** X26. A configuration that [loadConfig] returns is validated: every
    channel identifier starts with [UC] and has 24 characters, every
    playlist identifier starts with [PL] and has 34, there is at least one
    source, no keyword is empty, the match type is ['any'] or ['all'], the
    polling interval is at least 60 seconds, the log level is one of the
    four known levels, and outside the test mode the webhook URL parses to a
    host [discord.com] or [discordapp.com] and a path under
    [/api/webhooks/]; in the test mode no webhook URL is kept. *)
Theorem X26_loadConfig_validated (env : Env) (config : Config) :
  loadConfig trim toLowerCase toUpperCase URL env = Return config ->
  validated URL config.
Proof.
  unfold loadConfig. intros H.
  destruct (mapThrowing validateChannelId _) as [cs|] eqn:Hcs; [|discriminate].
  cbn [bind] in H.
  destruct (mapThrowing validatePlaylistId _) as [ps|] eqn:Hps; [|discriminate].
  cbn [bind] in H.
  destruct (Nat.eqb (length cs) 0 && Nat.eqb (length ps) 0) eqn:Hsrc;
    [discriminate|]. cbn [bind] in H.
  match type of H with bind ?m _ = _ => destruct m as [mt|] eqn:Hmt end;
    [|discriminate]. cbn [bind] in H.
  match type of H with bind ?m _ = _ => destruct m as [url|] eqn:Hurl end;
    [|discriminate]. cbn [bind] in H.
  match type of H with bind ?m _ = _ => destruct m as [interval|] eqn:Hint end;
    [|discriminate]. cbn [bind] in H.
  match type of H with bind ?m _ = _ => destruct m as [lvl|] eqn:Hlvl end;
    [|discriminate]. cbn [bind] in H.
  injection H as <-. unfold validated.
  cbn [channelIds playlistIds keywords matchType pollIntervalSeconds logLevel
       testMode discordWebhookUrl].
  repeat apply conj.
  - eapply (mapThrowing_Return validateChannelId); [|exact Hcs].
    intros a b. unfold validateChannelId.
    destruct (String.prefix "UC" a) eqn:Hp; [|discriminate].
    destruct (Nat.eqb_spec (String.length a) 24); [|discriminate].
    cbn [negb orb]. intros [= <-]. now split.
  - eapply (mapThrowing_Return validatePlaylistId); [|exact Hps].
    intros a b. unfold validatePlaylistId.
    destruct (String.prefix "PL" a) eqn:Hp; [|discriminate].
    destruct (Nat.eqb_spec (String.length a) 34); [|discriminate].
    cbn [negb orb]. intros [= <-]. now split.
  - apply andb_false_iff in Hsrc as [Hz|Hz]; apply Nat.eqb_neq in Hz; lia.
  - apply parseCommaSeparated_nonempty.
  - destruct (ET_MATCH_TYPE env) as [value|]; [|injection Hmt as <-; now left].
    destruct (String.eqb value ""); [injection Hmt as <-; now left|].
    cbv zeta in Hmt.
    destruct (String.eqb_spec (toLowerCase value) "any") as [Hany|Hany];
      [cbn [negb andb] in Hmt; injection Hmt as <-; now left|].
    destruct (String.eqb_spec (toLowerCase value) "all") as [Hall|Hall];
      [cbn [negb andb] in Hmt; injection Hmt as <-; now right|discriminate].
  - destruct (falsy (ET_POLL_INTERVAL_SECONDS env)); [injection Hint as <-; lia|].
    destruct (parseInt10 _) as [z|]; [|discriminate].
    destruct (Z.ltb_spec z 60); [discriminate|]. injection Hint as <-. lia.
  - destruct (falsy (ET_LOG_LEVEL env));
      [injection Hlvl as <-; unfold validLevels; set_solver|].
    cbv zeta in Hlvl.
    destruct (existsb _ validLevels) eqn:Hex; [|discriminate].
    injection Hlvl as <-. apply existsb_exists in Hex as (x & Hin & Heq).
    apply String.eqb_eq in Heq. rewrite Heq. now apply list_elem_of_In.
  - destruct (strictEq (ET_TEST_MODE env) "true"); cbn [negb] in Hurl.
    + now injection Hurl as <-.
    + destruct (validateWebhookUrl URL _) as [u|] eqn:Hu; [|discriminate].
      cbn [bind] in Hurl. injection Hurl as <-.
      unfold validateWebhookUrl in Hu.
      destruct (ET_DISCORD_WEBHOOK_URL env) as [raw|]; [|discriminate].
      destruct (String.eqb raw ""); [discriminate|].
      destruct (URL raw) as [msg|[host path]] eqn:Hparse; [discriminate|].
      destruct (String.eqb_spec host "discord.com") as [Hd|Hd];
        destruct (String.eqb_spec host "discordapp.com") as [Ha|Ha];
        cbn [negb andb] in Hu; try discriminate;
        destruct (String.prefix "/api/webhooks/" path) eqn:Hpath;
        cbn [negb] in Hu; try discriminate; injection Hu as <-;
        exists raw, host, path; repeat split; auto.
Qed.

End ConfigurationFacts.

Lemma X26_loadConfig_validated_witness :
  validated sample_URL
    (Configuration.mkConfig ["UCabcdefghijklmnopqrstuv"] [] ["rocq"; "proof"]
       "all" (Some "https://discord.com/api/webhooks/1/token") 120 None "WARN"
       false false).
Proof.
  apply (X26_loadConfig_validated (fun s => s) (fun s => s) (fun s => s)
           sample_URL sample_env).
  reflexivity.
Defined.
